(** * The postal-zone geometry pipeline (clip, gap-fill, dissolve, label)

    A shallow embedding of the build script of the repository (the script
    with the run modes coast | border | gapfill-border | none) and the
    properties its specification states about it.

    The script is plain sequential JavaScript over parsed GeoJSON.  The
    geometric primitives it calls belong to the turf library; they are an
    interface here ([Turf]), and every theorem holds for every
    implementation of that interface.  A JavaScript exception is the
    [Throw] outcome, [null]/[undefined] is [None]. *)

From Stdlib Require Import QArith Qcanon Ascii String.
From stdpp Require Import base option list strings gmap pretty sorting.

Set Default Proof Using "Type".
Local Open Scope string_scope.
Local Open Scope list_scope.

(** ** JavaScript numbers, as far as the script looks at them

    The script never computes with numbers, it only compares them
    ([<], [>], [<=], [>=]) and tests them for truthiness.  A number is NaN,
    an infinity or a finite value; comparisons involving NaN are false. *)

Inductive jsnum : Type :=
  | NaN
  | NegInf
  | Fin (q : Qc)
  | PosInf.

Global Instance jsnum_eq_dec : EqDecision jsnum.
Proof. solve_decision. Defined.

Definition js_lt (a b : jsnum) : bool :=
  match a, b with
  | NaN, _ | _, NaN => false
  | _, NegInf => false
  | NegInf, _ => true
  | PosInf, _ => false
  | Fin _, PosInf => true
  | Fin x, Fin y => match (x ?= y)%Qc with Lt => true | _ => false end
  end.

Definition js_le (a b : jsnum) : bool :=
  match a, b with
  | NaN, _ | _, NaN => false
  | NegInf, _ => true
  | _, NegInf => false
  | _, PosInf => true
  | PosInf, _ => false
  | Fin x, Fin y => match (x ?= y)%Qc with Gt => false | _ => true end
  end.

Definition js_gt (a b : jsnum) : bool := js_lt b a.
Definition js_ge (a b : jsnum) : bool := js_le b a.

Definition is_NaN (a : jsnum) : bool :=
  match a with NaN => true | _ => false end.

(** Finite numbers written as a fraction of integers. *)
Definition num (n : Z) (d : positive) : jsnum := Fin (Q2Qc (n # d)).

(** ** JSON values stored under a property key *)

Inductive jsval : Type :=
  | VNull
  | VBool (b : bool)
  | VNum (n : jsnum)
  | VStr (s : string).

Global Instance jsval_eq_dec : EqDecision jsval.
Proof. solve_decision. Defined.

(** [!v] is false exactly for the truthy values. *)
Definition truthy (v : jsval) : bool :=
  match v with
  | VNull => false
  | VBool b => b
  | VNum NaN => false
  | VNum (Fin q) => match (q ?= Q2Qc 0)%Qc with Eq => false | _ => true end
  | VNum _ => true
  | VStr s => negb (String.eqb s "")
  end.

(** Truthiness of an environment variable or a path: a non-empty string. *)
Definition str_truthy (o : option string) : bool :=
  match o with
  | Some s => negb (String.eqb s "")
  | None => false
  end.

(** [a || b] on optional strings. *)
Definition str_or (a b : option string) : option string :=
  if str_truthy a then a else b.

(** ** GeoJSON *)

Definition Position : Type := jsnum * jsnum.

Inductive Geometry : Type :=
  | Point (c : Position)
  | LineString (cs : list Position)
  | Polygon (rings : list (list Position))
  | MultiPolygon (polys : list (list (list Position))).

Record Feature : Type := mkFeature {
  properties : option (gmap string jsval);
  geometry : option Geometry
}.

(** A parsed GeoJSON document: a feature collection, one feature, or a
    bare geometry. *)
Inductive GeoDoc : Type :=
  | FeatureCollection (fs : list Feature)
  | DocFeature (f : Feature)
  | DocGeometry (g : Geometry).

(** [doc.features]: only a feature collection has the field. *)
Definition features (d : GeoDoc) : option (list Feature) :=
  match d with
  | FeatureCollection fs => Some fs
  | _ => None
  end.

(** [doc.features || []] *)
Definition features_or_nil (d : GeoDoc) : list Feature :=
  default [] (features d).

(** [feature?.properties?.postnummer] *)
Definition postnummer (f : Feature) : option jsval :=
  properties f ≫= (.!! "postnummer").

(** [feature.properties || {}] (an object is truthy, also an empty one) *)
Definition properties_or_empty (f : Feature) : gmap string jsval :=
  default ∅ (properties f).

(** A bounding box [[minX, minY, maxX, maxY]]; the fields are the array
    indices 0 to 3. *)
Record BBox : Type := mkBBox {
  bb0 : jsnum;
  bb1 : jsnum;
  bb2 : jsnum;
  bb3 : jsnum
}.

(** The point [p] lies in the box [b]. *)
Definition in_bbox (b : BBox) (p : Position) : Prop :=
  js_le (bb0 b) p.1 = true ∧ js_le p.1 (bb2 b) = true ∧
  js_le (bb1 b) p.2 = true ∧ js_le p.2 (bb3 b) = true.

(** ** Exceptions *)

Inductive outcome (A : Type) : Type :=
  | Ok (a : A)
  | Throw.
Arguments Ok {A} a.
Arguments Throw {A}.

Global Instance outcome_ret : MRet outcome := λ A a, Ok a.
Global Instance outcome_bind : MBind outcome := λ A B k m,
  match m with
  | Ok a => k a
  | Throw => Throw
  end.

(** [try { body } catch (error) { handler }] *)
Definition try_catch {A} (body : outcome A) (handler : A) : A :=
  match body with
  | Ok a => a
  | Throw => handler
  end.

(** [array.map(f)] where [f] may throw: the first exception aborts. *)
Fixpoint map_throwing {A B} (f : A → outcome B) (l : list A) : outcome (list B) :=
  match l with
  | [] => Ok []
  | a :: l' => b ← f a; bs ← map_throwing f l'; Ok (b :: bs)
  end.

(** ** The library interface

    What the script calls and does not define: the turf operations, each
    of which returns or throws, and JavaScript's [Number] on strings. *)

Class Turf : Type := {
  (** [turf.union(featureCollection([a, b]))]: a feature, or null when the
      union is empty *)
  turf_union : Feature → Feature → outcome (option Feature);
  (** [turf.intersect(featureCollection([a, b]))]: a feature or null *)
  turf_intersect : Feature → Feature → outcome (option Feature);
  (** [turf.difference(featureCollection([a, b]))]: a feature or null *)
  turf_difference : Feature → Feature → outcome (option Feature);
  turf_bbox : Feature → outcome BBox;
  turf_polygon : list (list Position) → outcome Feature;
  turf_centroid : Feature → outcome Feature;
  turf_area : Feature → outcome jsnum;
  (** [turf.distance(a, b, { units: 'kilometers' })] *)
  turf_distance : Feature → Feature → outcome jsnum;
  (** [Number(s)] for a string [s] *)
  js_Number : string → jsnum
}.

(** ** Configuration: the environment variables read at start-up *)

Record Env : Type := mkEnv {
  NORWAY_MASK_PATH : option string;
  BORDER_MASK_PATH_var : option string;
  CLIP_MODE_var : option string;
  GAP_AREA_MAX_var : option string
}.

Definition POSTAL_PATH : string := "public/postal-codes.geojson".

(** The files on disk that parse as GeoJSON. *)
Definition Files : Type := string → option GeoDoc.

(** [JSON.parse(fs.readFileSync(filePath, 'utf8'))]; reading an undefined
    or empty path throws, as does a missing file. *)
Definition loadGeoJSON (files : Files) (filePath : option string) : outcome GeoDoc :=
  match filePath with
  | Some p =>
      if String.eqb p "" then Throw
      else match files p with
           | Some d => Ok d
           | None => Throw
           end
  | None => Throw
  end.

Section Pipeline.
Context `{T : Turf}.

Definition MASK_PATH (env : Env) : option string := NORWAY_MASK_PATH env.
Definition BORDER_MASK_PATH (env : Env) : option string := BORDER_MASK_PATH_var env.

(** [process.env.CLIP_MODE || 'coast'] *)
Definition CLIP_MODE (env : Env) : string :=
  match CLIP_MODE_var env with
  | Some s => if String.eqb s "" then "coast" else s
  | None => "coast"
  end.

(** [Number(process.env.GAP_AREA_MAX || Infinity)] *)
Definition GAP_AREA_MAX (env : Env) : jsnum :=
  match GAP_AREA_MAX_var env with
  | Some s => if String.eqb s "" then PosInf else js_Number s
  | None => PosInf
  end.

Definition normalizeMask (mask : GeoDoc) : list Feature :=
  match mask with
  | FeatureCollection fs => map (λ feature, feature) fs
  | DocFeature f => [f]
  | DocGeometry g => [mkFeature (Some ∅) (Some g)]
  end.

(** The loop shared by [unionMask] (lines 40-52) and the per-group merge
    of [dissolveByPostnummer] (lines 152-163): [merged] is the loop
    variable. *)
Fixpoint union_loop (merged : option Feature) (fs : list Feature) : option Feature :=
  match fs with
  | [] => merged
  | feature :: rest =>
      match merged with
      | None => union_loop (Some feature) rest
      | Some m =>
          union_loop (try_catch (turf_union m feature) (Some m)) rest
      end
  end.

Definition unionMask (fs : list Feature) : option Feature :=
  union_loop None fs.

(** The prefilter of the clipper, lines 68-72. *)
Definition overlaps (featureBbox landBbox : BBox) : bool :=
  js_le (bb0 featureBbox) (bb2 landBbox) &&
  js_ge (bb2 featureBbox) (bb0 landBbox) &&
  js_le (bb1 featureBbox) (bb3 landBbox) &&
  js_ge (bb3 featureBbox) (bb1 landBbox).

(** What the exact intersection contributes to [clipped]. *)
Definition clip_push (feature : Feature) (intersected : option Feature) : list Feature :=
  match intersected with
  | Some i =>
      match geometry i with
      | Some g => [mkFeature (Some (properties_or_empty feature)) (Some g)]
      | None => []
      end
  | None => []
  end.

(** One iteration of the clipper's loop: the features pushed. *)
Definition clip_feature (landMask : Feature) (landBbox : BBox) (feature : Feature)
  : list Feature :=
  match geometry feature with
  | None => []
  | Some _ =>
      try_catch
        (featureBbox ← turf_bbox feature;
         if negb (overlaps featureBbox landBbox) then Ok []
         else intersected ← turf_intersect feature landMask;
              Ok (clip_push feature intersected))
        []
  end.

Definition clipPostalCodes (postalData : GeoDoc) (landMask : Feature)
  : outcome (list Feature) :=
  landBbox ← turf_bbox landMask;
  Ok (flat_map (clip_feature landMask landBbox) (features_or_nil postalData)).

Definition buildGapFeatures (landMask : Feature) (unionedPostal : option Feature)
  : outcome (list Feature) :=
  match unionedPostal with
  | None => Ok []
  | Some u =>
      match turf_difference landMask u with
      | Throw => Ok []
      | Ok None => Ok []
      | Ok (Some diff) =>
          match geometry diff with
          | None => Throw
          | Some (MultiPolygon polys) => map_throwing turf_polygon polys
          | Some _ => Ok [diff]
          end
      end
  end.

(** An entry of [centroidCache]. *)
Record CacheEntry : Type := mkEntry {
  entry_feature : Feature;
  entry_centroid : Feature
}.

(** The loop variable [best]. *)
Record Best : Type := mkBest {
  best_distance : jsnum;
  best_feature : Feature
}.

(** One iteration of the scan over [centroidCache], lines 123-126. *)
Definition scan_step (gapCenter : Feature) (best : option Best) (entry : CacheEntry)
  : outcome (option Best) :=
  distance ← turf_distance gapCenter (entry_centroid entry);
  match best with
  | None => Ok (Some (mkBest distance (entry_feature entry)))
  | Some b =>
      if js_lt distance (best_distance b)
      then Ok (Some (mkBest distance (entry_feature entry)))
      else Ok best
  end.

Fixpoint scan (gapCenter : Feature) (best : option Best) (cache : list CacheEntry)
  : outcome (option Best) :=
  match cache with
  | [] => Ok best
  | entry :: rest => b ← scan_step gapCenter best entry; scan gapCenter b rest
  end.

(** Lines 129-135: what is pushed once the scan is over. *)
Definition gap_push (gapFeature : Feature) (best : option Best) : list Feature :=
  match best with
  | Some b => [mkFeature (Some (properties_or_empty (best_feature b)))
                         (geometry gapFeature)]
  | None => []
  end.

(** The callback of [gaps.forEach], lines 115-136: the features it pushes
    onto [additions]. *)
Definition assign_gap (gapAreaMax : jsnum) (centroidCache : list CacheEntry)
    (gapFeature : Feature) : outcome (list Feature) :=
  area ← turf_area gapFeature;
  if js_gt area gapAreaMax then Ok []
  else gapCenter ← turf_centroid gapFeature;
       best ← scan gapCenter None centroidCache;
       Ok (gap_push gapFeature best).

Fixpoint forEach_gap (gapAreaMax : jsnum) (centroidCache : list CacheEntry)
    (gaps additions : list Feature) : outcome (list Feature) :=
  match gaps with
  | [] => Ok additions
  | gapFeature :: rest =>
      pushed ← assign_gap gapAreaMax centroidCache gapFeature;
      forEach_gap gapAreaMax centroidCache rest (additions ++ pushed)
  end.

Definition build_cache (fs : list Feature) : outcome (list CacheEntry) :=
  map_throwing (λ feature, c ← turf_centroid feature; Ok (mkEntry feature c)) fs.

Definition assignGapsToNearest (gapAreaMax : jsnum) (clipped : GeoDoc)
    (gaps : list Feature) : outcome (list Feature) :=
  match gaps with
  | [] => Ok []
  | _ =>
      match features clipped with
      | None => Throw
      | Some fs =>
          centroidCache ← build_cache fs;
          forEach_gap gapAreaMax centroidCache gaps []
      end
  end.

(** The Map [grouped]: keys in insertion order, each with its array. *)
Fixpoint group_push (k : jsval) (feature : Feature)
    (grouped : list (jsval * list Feature)) : list (jsval * list Feature) :=
  match grouped with
  | [] => [(k, [feature])]
  | (k', group) :: rest =>
      if decide (k = k') then (k', group ++ [feature]) :: rest
      else (k', group) :: group_push k feature rest
  end.

(** Lines 143-148, one iteration. *)
Definition group_step (grouped : list (jsval * list Feature)) (feature : Feature)
  : list (jsval * list Feature) :=
  match postnummer feature with
  | Some k => if truthy k then group_push k feature grouped else grouped
  | None => grouped
  end.

Definition group_by_postnummer (fs : list Feature) : list (jsval * list Feature) :=
  fold_left group_step fs [].

(** Lines 151-171, one iteration: what a group pushes onto [dissolved]. *)
Definition dissolve_group (entry : jsval * list Feature) : list Feature :=
  match union_loop None entry.2 with
  | Some merged =>
      match geometry merged with
      | Some g => [mkFeature (Some {[ "postnummer" := entry.1 ]}) (Some g)]
      | None => []
      end
  | None => []
  end.

Definition dissolveByPostnummer (fs : list Feature) : list Feature :=
  flat_map dissolve_group (group_by_postnummer fs).

(** The properties object [{ postnummer: v }]; an undefined value leaves
    no key behind when written out. *)
Definition postnummer_object (v : option jsval) : gmap string jsval :=
  match v with
  | Some k => {[ "postnummer" := k ]}
  | None => ∅
  end.

(** One iteration of the label loop, lines 178-187. *)
Definition label_feature (feature : Feature) : list Feature :=
  try_catch
    (centroid ← turf_centroid feature;
     Ok [mkFeature (Some (postnummer_object (postnummer feature)))
                   (geometry centroid)])
    [].

Definition buildLabelPoints (dissolved : GeoDoc) : list Feature :=
  flat_map label_feature (features_or_nil dissolved).

(** Lines 193-250 of [run]: the value of [output]. *)
Definition compute_output (env : Env) (files : Files) (postalData : GeoDoc)
  : outcome GeoDoc :=
  if String.eqb (CLIP_MODE env) "none" then Ok postalData
  else if String.eqb (CLIP_MODE env) "gapfill-border" then
    let maskPath := str_or (BORDER_MASK_PATH env) (MASK_PATH env) in
    if negb (str_truthy maskPath) then Throw
    else
      maskData ← loadGeoJSON files maskPath;
      match unionMask (normalizeMask maskData) with
      | None => Throw
      | Some borderMask =>
          let unionedPostal := unionMask (features_or_nil postalData) in
          gaps ← buildGapFeatures borderMask unionedPostal;
          additions ← assignGapsToNearest (GAP_AREA_MAX env) postalData gaps;
          Ok (FeatureCollection (features_or_nil postalData ++ additions))
      end
  else
    let maskPath :=
      if String.eqb (CLIP_MODE env) "border"
      then str_or (BORDER_MASK_PATH env) (MASK_PATH env)
      else MASK_PATH env in
    maskData ← loadGeoJSON files maskPath;
    match unionMask (normalizeMask maskData) with
    | None => Throw
    | Some landMask =>
        clipped ← clipPostalCodes postalData landMask;
        if String.eqb (CLIP_MODE env) "coast" then
          let unionedPostal := unionMask clipped in
          gaps ← buildGapFeatures landMask unionedPostal;
          additions ← assignGapsToNearest (GAP_AREA_MAX env)
                        (FeatureCollection clipped) gaps;
          Ok (FeatureCollection (clipped ++ additions))
        else Ok (FeatureCollection clipped)
    end.

(** What a run leaves behind: the three documents written (each also
    written compressed, with the same content) and the exit status. *)
Record Written : Type := mkWritten {
  clipped_file : option GeoDoc;
  dissolved_file : option GeoDoc;
  labels_file : option GeoDoc;
  exit_status : nat
}.

(** The whole script: the start-up guard of line 20, then [run] inside
    the final try/catch. *)
Definition run (env : Env) (files : Files) : Written :=
  if negb (String.eqb (CLIP_MODE env) "none")
     && negb (str_truthy (MASK_PATH env))
     && negb (str_truthy (BORDER_MASK_PATH env))
  then mkWritten None None None 1
  else
    match postalData ← loadGeoJSON files (Some POSTAL_PATH);
          compute_output env files postalData with
    | Throw => mkWritten None None None 1
    | Ok output =>
        match features output with
        | None => mkWritten (Some output) None None 1
        | Some fs =>
            let dissolved := FeatureCollection (dissolveByPostnummer fs) in
            let labels := FeatureCollection (buildLabelPoints dissolved) in
            mkWritten (Some output) (Some dissolved) (Some labels) 0
        end
    end.

End Pipeline.

(** ** An executable implementation of the interface

    Planar and exact, for running the pipeline on small inputs.  It follows
    turf in what the script depends on: [bbox] is the coordinate-wise
    minimum and maximum starting from [[Infinity, Infinity, -Infinity,
    -Infinity]]; [centroid] is the mean of the vertices (closing vertex of
    a ring left out) and throws when there is none, because turf's
    [point] rejects NaN coordinates; [union] returns null for an empty
    result.  Polygons are treated as the rectangles they span. *)

Module Sample.

Definition coords (g : Geometry) : list Position :=
  match g with
  | Point c => [c]
  | LineString cs => cs
  | Polygon rings => concat rings
  | MultiPolygon polys => concat (concat polys)
  end.

Definition vertices (g : Geometry) : list Position :=
  match g with
  | Point c => [c]
  | LineString cs => cs
  | Polygon rings => concat (map (λ ring, removelast ring) rings)
  | MultiPolygon polys => concat (map (λ ring, removelast ring) (concat polys))
  end.

Definition feature_coords (f : Feature) : list Position :=
  from_option coords [] (geometry f).

Definition extend (b : BBox) (c : Position) : BBox :=
  mkBBox (if js_gt (bb0 b) c.1 then c.1 else bb0 b)
         (if js_gt (bb1 b) c.2 then c.2 else bb1 b)
         (if js_lt (bb2 b) c.1 then c.1 else bb2 b)
         (if js_lt (bb3 b) c.2 then c.2 else bb3 b).

Definition bbox_of (cs : list Position) : BBox :=
  fold_left extend cs (mkBBox PosInf PosInf NegInf NegInf).

Definition bbox (f : Feature) : outcome BBox := Ok (bbox_of (feature_coords f)).

Definition finite (a : jsnum) : option Qc :=
  match a with Fin q => Some q | _ => None end.

Definition finite_pos (c : Position) : option (Qc * Qc) :=
  x ← finite c.1; y ← finite c.2; Some (x, y).

Definition point (x y : Qc) : Feature :=
  mkFeature (Some ∅) (Some (Point (Fin x, Fin y))).

Definition centroid (f : Feature) : outcome Feature :=
  match mapM finite_pos (from_option vertices [] (geometry f)) with
  | None => Throw
  | Some [] => Throw
  | Some vs =>
      let n := Qc_of_Z (Z.of_nat (length vs)) in
      let sx := foldr (λ v s, (v.1 + s)%Qc) (Q2Qc 0) vs in
      let sy := foldr (λ v s, (v.2 + s)%Qc) (Q2Qc 0) vs in
      Ok (point (sx / n)%Qc (sy / n)%Qc)
  end.

Definition Qc_abs (q : Qc) : Qc :=
  match (q ?= Q2Qc 0)%Qc with Lt => (- q)%Qc | _ => q end.

Definition distance (a b : Feature) : outcome jsnum :=
  match geometry a, geometry b with
  | Some (Point ca), Some (Point cb) =>
      match finite_pos ca, finite_pos cb with
      | Some (xa, ya), Some (xb, yb) =>
          Ok (Fin (Qc_abs (xa - xb) + Qc_abs (ya - yb))%Qc)
      | _, _ => Ok NaN
      end
  | _, _ => Throw
  end.

(** The rectangle spanned by a box, as a closed ring; none for an empty
    box. *)
Definition box_ring (b : BBox) : option (list Position) :=
  if js_le (bb0 b) (bb2 b) && js_le (bb1 b) (bb3 b)
  then Some [(bb0 b, bb1 b); (bb2 b, bb1 b); (bb2 b, bb3 b); (bb0 b, bb3 b);
             (bb0 b, bb1 b)]
  else None.

Definition area (f : Feature) : outcome jsnum :=
  let b := bbox_of (feature_coords f) in
  match finite (bb0 b), finite (bb1 b), finite (bb2 b), finite (bb3 b) with
  | Some x0, Some y0, Some x1, Some y1 => Ok (Fin ((x1 - x0) * (y1 - y0))%Qc)
  | _, _, _, _ => Ok (Fin (Q2Qc 0))
  end.

Definition polys_of (f : Feature) : outcome (list (list (list Position))) :=
  match geometry f with
  | Some (Polygon rings) => Ok [rings]
  | Some (MultiPolygon polys) => Ok polys
  | _ => Throw
  end.

Definition ring_ok (ring : list Position) : bool :=
  bool_decide (4 ≤ length ring)%nat.

Definition checked_polys (f : Feature) : outcome (list (list (list Position))) :=
  ps ← polys_of f;
  if forallb (forallb ring_ok) ps then Ok ps else Throw.

Definition of_polys (ps : list (list (list Position))) : option Feature :=
  match ps with
  | [] => None
  | [rings] => Some (mkFeature (Some ∅) (Some (Polygon rings)))
  | _ => Some (mkFeature (Some ∅) (Some (MultiPolygon ps)))
  end.

Definition union (a b : Feature) : outcome (option Feature) :=
  pa ← checked_polys a; pb ← checked_polys b; Ok (of_polys (pa ++ pb)).

Definition meet (a b : BBox) : BBox :=
  mkBBox (if js_lt (bb0 a) (bb0 b) then bb0 b else bb0 a)
         (if js_lt (bb1 a) (bb1 b) then bb1 b else bb1 a)
         (if js_lt (bb2 b) (bb2 a) then bb2 b else bb2 a)
         (if js_lt (bb3 b) (bb3 a) then bb3 b else bb3 a).

Definition intersect (a b : Feature) : outcome (option Feature) :=
  pa ← checked_polys a; pb ← checked_polys b;
  Ok (ring ← box_ring (meet (bbox_of (concat (concat pa)))
                             (bbox_of (concat (concat pb))));
      Some (mkFeature (Some ∅) (Some (Polygon [ring])))).

Definition difference (a b : Feature) : outcome (option Feature) :=
  pa ← checked_polys a; pb ← checked_polys b;
  Ok (of_polys (filter (λ p, p ∉ pb) pa)).

Definition polygon (rings : list (list Position)) : outcome Feature :=
  if forallb ring_ok rings
  then Ok (mkFeature (Some ∅) (Some (Polygon rings)))
  else Throw.

Definition digit (a : ascii) : option Z :=
  let n := Z.of_nat (nat_of_ascii a) in
  if bool_decide (48 ≤ n ≤ 57)%Z then Some (n - 48)%Z else None.

(** [Number] on strings of decimal digits; NaN for anything else. *)
Definition Number (s : string) : jsnum :=
  match mapM digit (list_ascii_of_string s) with
  | Some (d :: ds) => Fin (Qc_of_Z (fold_left (λ acc x, 10 * acc + x)%Z (d :: ds) 0%Z))
  | _ => NaN
  end.

#[local] Instance turf : Turf := {|
  turf_union := union;
  turf_intersect := intersect;
  turf_difference := difference;
  turf_bbox := bbox;
  turf_polygon := polygon;
  turf_centroid := centroid;
  turf_area := area;
  turf_distance := distance;
  js_Number := Number
|}.

(** *** Sample data *)

Definition pt (x y : Z) : Position := (Fin (Qc_of_Z x), Fin (Qc_of_Z y)).

(** The rectangle with corners (x0, y0) and (x1, y1). *)
Definition rect (x0 y0 x1 y1 : Z) : Geometry :=
  Polygon [[pt x0 y0; pt x1 y0; pt x1 y1; pt x0 y1; pt x0 y0]].

Definition postal (code : string) (g : Geometry) : Feature :=
  mkFeature (Some {[ "postnummer" := VStr code ]}) (Some g).

Definition bare (g : Geometry) : Feature := mkFeature (Some ∅) (Some g).

(** Two zones with a strip between them, as in the scenario of the
    specification; the mask is the three rectangles. *)
Definition zoneA : Feature := postal "0150" (rect 0 0 4 4).
Definition zoneB : Feature := postal "0151" (rect 7 0 10 4).
Definition strip : Feature := bare (rect 4 0 7 4).

Definition postalData : GeoDoc := FeatureCollection [zoneA; zoneB].
Definition maskData : GeoDoc :=
  FeatureCollection [bare (rect 0 0 4 4); strip; bare (rect 7 0 10 4)].

Definition files : Files := λ p,
  if String.eqb p POSTAL_PATH then Some postalData
  else if String.eqb p "mask.geojson" then Some maskData
  else None.

Definition env (mode : string) (gapAreaMax : option string) : Env :=
  mkEnv (Some "mask.geojson") None (Some mode) gapAreaMax.

(** A zone whose polygon has no ring at all. *)
Definition hollow : Feature := postal "0150" (Polygon []).

(** The centroid cache of the two zones, and the unified mask. *)
Definition cache_of (fs : list Feature) : list CacheEntry :=
  try_catch (build_cache (T:=turf) fs) [].

Definition cache : list CacheEntry := cache_of [zoneA; zoneB].

(** A zone as far from the strip as [zoneA] is. *)
Definition twinB : Feature := postal "0151" (rect 7 0 11 4).

Definition landMask : Feature :=
  default strip (unionMask (T:=turf) (normalizeMask maskData)).

(** Zone 0151 once the strip has been merged into it. *)
Definition grownB : Feature :=
  mkFeature (Some {[ "postnummer" := VStr "0151" ]})
            (Some (MultiPolygon
                     [[[pt 7 0; pt 10 0; pt 10 4; pt 7 4; pt 7 0]];
                      [[pt 4 0; pt 7 0; pt 7 4; pt 4 4; pt 4 0]]])).

(** The region a feature stands for: the rectangle it spans. *)
Definition region (f : Feature) (p : Position) : Prop :=
  in_bbox (bbox_of (feature_coords f)) p.

End Sample.

(** ** The statements of the specification, as definitions *)

Section Statements.
Context `{T : Turf}.

(** The step of the Mask Unifier in the specification's words: the union
    replaces the accumulator on success, the prior accumulator is kept on
    failure.  With nothing accumulated the feature is the accumulator. *)
Definition union_or_keep (acc : option Feature) (feature : Feature) : option Feature :=
  match acc with
  | Some m =>
      match turf_union m feature with
      | Ok u => u
      | Throw => Some m
      end
  | None => Some feature
  end.

(** The Mask Unifier in the specification's words: a left fold that starts
    with the first feature; none for the empty list. *)
Definition unionMask_fold (fs : list Feature) : option Feature :=
  match fs with
  | [] => None
  | first :: rest => fold_left union_or_keep rest (Some first)
  end.

(** The number of label points that carry the code of [d]. *)
Definition labels_of (d : Feature) (labels : list Feature) : nat :=
  length (filter (λ l, postnummer l = postnummer d) labels).

(** The codes of the label points and of the dissolved features are in
    bijection. *)
Definition codes_in_bijection (dissolved labels : list Feature) : Prop :=
  (∀ l, l ∈ labels → ∃ d, d ∈ dissolved ∧ postnummer d = postnummer l) ∧
  (∀ d, d ∈ dissolved → labels_of d labels = 1).

(** What is left of [assign_gap] after the area filter, lines 119-135. *)
Definition assign_unfiltered (centroidCache : list CacheEntry) (gapFeature : Feature)
  : outcome (list Feature) :=
  gapCenter ← turf_centroid gapFeature;
  best ← scan gapCenter None centroidCache;
  Ok (gap_push gapFeature best).

(** Every code of [out] is the code of a feature of [inp]. *)
Definition codes_from (out inp : list Feature) : Prop :=
  ∀ d, d ∈ out → ∃ f, f ∈ inp ∧ postnummer d = postnummer f.

(** The Map entry of a feature that is alone with its code. *)
Definition solo (d : Feature) : jsval * list Feature :=
  (default VNull (postnummer d), [d]).

(** [b] is what the scan holds after the entries [seen]: it is the entry at
    some index [i], no entry seen is strictly nearer, and no entry before
    [i] is as near. *)
Definition chosen (gapCenter : Feature) (seen : list CacheEntry) (i : nat) (b : Best)
  : Prop :=
  (∃ e, seen !! i = Some e ∧ best_feature b = entry_feature e ∧
        turf_distance gapCenter (entry_centroid e) = Ok (best_distance b)) ∧
  ∀ j e' d', seen !! j = Some e' →
    turf_distance gapCenter (entry_centroid e') = Ok d' →
    js_lt d' (best_distance b) = false ∧
    (j < i → js_le d' (best_distance b) = false).

(** Among the candidate features [fs], the one at index [i] is [f], and
    it is the nearest to [gapCenter] by the distance between centroids, the
    first of the nearest: no candidate is strictly nearer, none before [i]
    is as near, and its distance is the least when the distances are
    numbers other than NaN. *)
Definition nearest_candidate (gapCenter : Feature) (fs : list Feature) (i : nat)
    (f : Feature) : Prop :=
  ∃ c d, fs !! i = Some f ∧ turf_centroid f = Ok c ∧
         turf_distance gapCenter c = Ok d ∧
         ∀ j f' c' d', fs !! j = Some f' → turf_centroid f' = Ok c' →
           turf_distance gapCenter c' = Ok d' →
           js_lt d' d = false ∧
           (j < i → js_le d' d = false) ∧
           (is_NaN d = false → is_NaN d' = false → js_le d d' = true).

Definition scan_inv (gapCenter : Feature) (seen : list CacheEntry) (best : option Best)
  : Prop :=
  match best with
  | Some b => ∃ i, chosen gapCenter seen i b
  | None => seen = []
  end.

End Statements.

(** ** Further statements about the pipeline *)

Section MoreStatements.
Context `{T : Turf}.

(** The key under which the Dissolver groups a feature, if any: its code
    when it has one and the code is truthy. *)
Definition truthy_code (f : Feature) : option jsval :=
  match postnummer f with
  | Some k => if truthy k then Some k else None
  | None => None
  end.

(** The distinct values of a list, each at its first occurrence. *)
Fixpoint first_seen (ks : list jsval) : list jsval :=
  match ks with
  | [] => []
  | k :: rest => k :: filter (λ k', k' ≠ k) (first_seen rest)
  end.

(** The features of [fs] that carry the code [k], in the order of [fs]. *)
Definition with_code (k : jsval) (fs : list Feature) : list Feature :=
  filter (λ f, postnummer f = Some k) fs.

(** A feature reduced to its code and its geometry. *)
Definition code_and_geometry (f : Feature) : Feature :=
  mkFeature (Some (postnummer_object (postnummer f))) (geometry f).

(** The calls of [turf.union] that the loop of [unionMask] makes on a list,
    as pairs of accumulator and feature, in the order in which it makes
    them. *)
Fixpoint union_calls (merged : option Feature) (fs : list Feature)
  : list (Feature * Feature) :=
  match fs with
  | [] => []
  | feature :: rest =>
      match merged with
      | None => union_calls (Some feature) rest
      | Some m =>
          (m, feature)
            :: union_calls (try_catch (turf_union m feature) (Some m)) rest
      end
  end.

(** A run that wrote no file. *)
Definition nothing_written : Written := mkWritten None None None 1.

(** The modes the script compares CLIP_MODE with besides [coast]; every
    other string takes the final [else] branch of [run]. *)
Definition named_mode (mode : string) : bool :=
  String.eqb mode "none" || String.eqb mode "gapfill-border" ||
  String.eqb mode "border".

End MoreStatements.

(** ** The earlier clipping script

    [scripts/clip-postal-geojson.cjs] defines [loadGeoJSON],
    [normalizeMask], [unionMask], [clipPostalCodes], [buildGapFeatures] and
    [assignGapsToNearest] with the same text as the pipeline script, reads
    the same environment variables NORWAY_MASK_PATH and GAP_AREA_MAX, and
    writes the first document only. *)

Module ClipScript.
Section ClipScript.
Context `{T : Turf}.

(** Lines 14-17 and 135-172: the document written, if any, and the exit
    status.  [existsSync] tells which paths exist on disk. *)
Definition run (existsSync : string → bool) (env : Env) (files : Files)
  : option GeoDoc * nat :=
  if negb (str_truthy (MASK_PATH env))
     || negb (existsSync (default "" (MASK_PATH env)))
  then (None, 1)
  else
    match postalData ← loadGeoJSON files (Some POSTAL_PATH);
          maskData ← loadGeoJSON files (MASK_PATH env);
          match unionMask (normalizeMask maskData) with
          | None => Throw
          | Some landMask =>
              clipped ← clipPostalCodes postalData landMask;
              let unionedPostal := unionMask clipped in
              gaps ← buildGapFeatures landMask unionedPostal;
              additions ← assignGapsToNearest (GAP_AREA_MAX env)
                            (FeatureCollection clipped) gaps;
              Ok (FeatureCollection (clipped ++ additions))
          end with
    | Ok output => (Some output, 0)
    | Throw => (None, 1)
    end.

End ClipScript.
End ClipScript.

(** ** Postal codes typed or imported in the map client

    [src/utils/postnummer.ts].  A string is its sequence of characters;
    [\D] is every character other than the ten digits. *)

Definition is_digit (a : ascii) : bool :=
  (48 <=? nat_of_ascii a)%nat && (nat_of_ascii a <=? 57)%nat.

(** [value.replace(/\D/g, '')] *)
Fixpoint digitsOnly (value : string) : string :=
  match value with
  | EmptyString => EmptyString
  | String a rest =>
      if is_digit a then String a (digitsOnly rest) else digitsOnly rest
  end.

Definition normalizePostnummer (value : string) : option string :=
  let digits := digitsOnly value in
  if (String.length digits =? 4)%nat then Some digits else None.

(** Every character of the string is a digit. *)
Fixpoint all_digits (s : string) : bool :=
  match s with
  | EmptyString => true
  | String a rest => is_digit a && all_digits rest
  end.

(** ** The converter of the raw postal file

    [scripts/convert-postal-geojson.cjs].  The raw file is a JSON object
    from postal code to an item whose [geojson] is a geometry, a feature or
    either of them as a JSON string.  The script is a loop over
    [Object.entries(data)], where [data] is the parsed raw file;
    [JSON.parse] on the inner strings is the one call it does not define.
    A string is its sequence of code units. *)

Local Unset Elimination Schemes.
Inductive json : Type :=
  | JNull
  | JBool (b : bool)
  | JNum (n : jsnum)
  | JStr (s : string)
  | JArr (items : list json)
  | JObj (fields : list (string * json)).
Local Set Elimination Schemes.

Definition json_truthy (v : json) : bool :=
  match v with
  | JNull => false
  | JBool b => b
  | JNum n => truthy (VNum n)
  | JStr s => negb (String.eqb s "")
  | JArr _ | JObj _ => true
  end.

(** [v.key]: undefined unless [v] is an object with that key (keys of a
    parsed object are distinct; no key the script reads exists on an
    array, a string, a number or a boolean). *)
Definition field (v : json) (key : string) : option json :=
  match v with
  | JObj fields => snd <$> List.find (λ kv, String.eqb kv.1 key) fields
  | _ => None
  end.

(** [!!v.key] *)
Definition field_truthy (v : json) (key : string) : bool :=
  from_option json_truthy false (field v key).

(** [typeof v === 'object'] *)
Definition typeof_object (v : json) : bool :=
  match v with
  | JNull | JArr _ | JObj _ => true
  | _ => false
  end.

(** [s.padStart(4, '0')] *)
Definition padStart4 (s : string) : string :=
  (string_of_list_ascii (replicate (4 - String.length s) "0"%char) ++ s)%string.

(** *** The order of [Object.entries]

    The own keys of an object come in two runs: first the keys that are
    array indices, in ascending numeric order, then the other keys in the
    order in which they were created, which for a parsed file is the order
    of the file. *)

Definition decimal_value (key : string) : N :=
  fold_left (λ acc a, 10 * acc + (N.of_nat (nat_of_ascii a) - 48))%N
            (list_ascii_of_string key) 0%N.

(** A key is an array index when it is the canonical decimal form (no
    leading zero, no sign) of an integer from 0 to 2^32 - 2. *)
Definition array_index (key : string) : option N :=
  if all_digits key
     && match key with
        | EmptyString => false
        | String "0" (String _ _) => false
        | _ => true
        end
     && (decimal_value key <? 4294967295)%N
  then Some (decimal_value key)
  else None.

Fixpoint insert_by_index (e : N * (string * json)) (l : list (N * (string * json)))
  : list (N * (string * json)) :=
  match l with
  | [] => [e]
  | x :: rest =>
      if (e.1 <? x.1)%N then e :: x :: rest else x :: insert_by_index e rest
  end.

Definition sort_by_index (l : list (N * (string * json)))
  : list (N * (string * json)) :=
  foldr insert_by_index [] l.

(** The fields whose key is an array index, each with its index. *)
Definition indexed (fields : list (string * json)) : list (N * (string * json)) :=
  omap (λ kv, (λ n, (n, kv)) <$> array_index kv.1) fields.

(** The fields of an object (in creation order, keys distinct) in the
    order in which [Object.entries] lists them. *)
Definition own_keys_order (fields : list (string * json)) : list (string * json) :=
  (snd <$> sort_by_index (indexed fields))
  ++ filter (λ kv, array_index kv.1 = None) fields.

(** [Object.entries(data)]: the elements of an array and the characters
    of a string under their positions, nothing for a number or a boolean,
    a TypeError for null. *)
Definition Object_entries (data : json) : outcome (list (string * json)) :=
  match data with
  | JNull => Throw
  | JBool _ | JNum _ => Ok []
  | JStr s => Ok (imap (λ i c, (pretty i, JStr (String c ""))) (list_ascii_of_string s))
  | JArr items => Ok (imap (λ i v, (pretty i, v)) items)
  | JObj fields => Ok (own_keys_order fields)
  end.

(** A feature as the converter writes it. *)
Record Converted : Type := mkConverted {
  conv_postnummer : string;
  conv_geometry : json
}.

Section Converter.
Context (JSON_parse : string → outcome json).

(** Lines 14-43, one iteration: the features pushed. *)
Definition convert_entry (entry : string * json) : list Converted :=
  let item := entry.2 in
  if negb (json_truthy item) || negb (field_truthy item "geojson") then []
  else
    match field item "geojson" with
    | None => []
    | Some geojson =>
        match (match geojson with
               | JStr s => JSON_parse s
               | _ => Ok geojson
               end) with
        | Throw => []
        | Ok parsed =>
            if negb (json_truthy parsed) || negb (typeof_object parsed) then []
            else
              let geometry :=
                match field parsed "type" with
                | Some (JStr "Feature") =>
                    if field_truthy parsed "geometry"
                    then default parsed (field parsed "geometry")
                    else parsed
                | _ => parsed
                end in
              if negb (field_truthy geometry "type")
                 || negb (field_truthy geometry "coordinates")
              then []
              else [mkConverted (padStart4 entry.1) geometry]
        end
    end.

(** Lines 9-48: the features of the collection written, from the parsed
    raw file [data]. *)
Definition convert (data : json) : outcome (list Converted) :=
  entries ← Object_entries data;
  Ok (flat_map convert_entry entries).

End Converter.

(** ** More sample data *)

Module Fixtures.

(** A point feature: not something a union accepts. *)
Definition marker : Feature := Sample.bare (Point (Sample.pt 1 1)).

(** A multi-part polygon without any part. *)
Definition void : Feature := Sample.bare (MultiPolygon []).

(** A second polygon of zone 0150, and a feature without a code. *)
Definition zoneA2 : Feature := Sample.postal "0150" (Sample.rect 0 4 4 6).
Definition uncoded : Feature := Sample.bare (Sample.rect 20 20 21 21).

(** The strip as a polygon of zone 0151. *)
Definition stripB : Feature := Sample.postal "0151" (Sample.rect 4 0 7 4).

(** Every path exists. *)
Definition existsSync : string → bool := λ _, true.

(** The mask minus zone 0150: the strip and the rectangle of zone 0151. *)
Definition uncovered : Feature :=
  default Sample.strip
    (try_catch (Sample.difference Sample.landMask Sample.zoneA) None).

(** What the Gap Assigner adds for the strip, without and with a maximum
    of 5. *)
Definition additions : list Feature :=
  try_catch (assignGapsToNearest (T:=Sample.turf) PosInf Sample.postalData
               [Sample.strip]) [].
Definition additions5 : list Feature :=
  try_catch (assignGapsToNearest (T:=Sample.turf) (num 5 1) Sample.postalData
               [Sample.strip]) [].

(** The first document of a run of the sample in a mode. *)
Definition output (mode : string) : GeoDoc :=
  try_catch (compute_output (T:=Sample.turf) (Sample.env mode None) Sample.files
               Sample.postalData) (FeatureCollection []).

Definition dissolved_doc : GeoDoc :=
  default (FeatureCollection [])
    (dissolved_file (run (T:=Sample.turf) (Sample.env "coast" None) Sample.files)).

(** A postal file that holds one feature instead of a collection, and one
    that holds an empty collection. *)
Definition files_one_feature : Files := λ p,
  if String.eqb p POSTAL_PATH then Some (DocFeature Sample.zoneA)
  else Sample.files p.

Definition files_no_feature : Files := λ p,
  if String.eqb p POSTAL_PATH then Some (FeatureCollection [])
  else Sample.files p.

(** Only BORDER_MASK_PATH is set; the mode is left to its default. *)
Definition env_border_only : Env :=
  mkEnv None (Some "mask.geojson") None None.

(** A raw postal file, its keys in file order: a feature given as a JSON
    string, a key with a leading zero, an item without geometry, a key
    smaller than the ones before it, a string that does not parse.  The
    parser knows the one string. *)
Definition square : json :=
  JObj [("type", JStr "Polygon"); ("coordinates", JArr [JArr []])].

Definition JSON_parse (s : string) : outcome json :=
  if String.eqb s "{feature}"
  then Ok (JObj [("type", JStr "Feature"); ("geometry", square)])
  else Throw.

Definition raw_fields : list (string * json) :=
  [("151", JObj [("geojson", JStr "{feature}")]);
   ("0150", JObj [("geojson", square)]);
   ("152", JObj [("name", JStr "no geometry")]);
   ("150", JObj [("geojson", square)]);
   ("153", JObj [("geojson", JStr "not json")])].

End Fixtures.


(** * Properties *)

(** ** The order on numbers *)

Lemma js_lt_Fin (x y : Qc) : js_lt (Fin x) (Fin y) = true ↔ (x < y)%Qc.
Proof.
  simpl. rewrite Qclt_alt. destruct (x ?= y)%Qc; split; congruence.
Qed.

Lemma js_le_Fin (x y : Qc) : js_le (Fin x) (Fin y) = true ↔ (x ≤ y)%Qc.
Proof.
  simpl. rewrite Qcle_alt. destruct (x ?= y)%Qc; split; congruence.
Qed.

Ltac js_order :=
  repeat match goal with
         | a : jsnum |- _ => destruct a
         end;
  try (simpl in *; congruence);
  rewrite ?js_lt_Fin, ?js_le_Fin, <- ?not_true_iff_false,
          ?js_lt_Fin, ?js_le_Fin in *.

Lemma js_lt_irrefl (a : jsnum) : js_lt a a = false.
Proof. js_order. intros H. by apply Qclt_not_eq in H. Qed.

Lemma js_lt_trans (a b c : jsnum) :
  js_lt a b = true → js_lt b c = true → js_lt a c = true.
Proof. js_order. apply Qclt_trans. Qed.

Lemma js_le_trans (a b c : jsnum) :
  js_le a b = true → js_le b c = true → js_le a c = true.
Proof. js_order. apply Qcle_trans. Qed.

Lemma js_le_lt_trans (a b c : jsnum) :
  js_le a b = true → js_lt b c = true → js_lt a c = true.
Proof. js_order. apply Qcle_lt_trans. Qed.

(** On numbers other than NaN the order is total. *)
Lemma js_lt_false_le (a b : jsnum) :
  is_NaN a = false → is_NaN b = false → js_lt a b = false → js_le b a = true.
Proof. js_order. intros _ _. apply Qcnot_lt_le. Qed.

Lemma js_gt_NaN (a : jsnum) : js_gt a NaN = false.
Proof. by destruct a. Qed.

Lemma js_gt_PosInf (a : jsnum) : js_gt a PosInf = false.
Proof. by destruct a. Qed.

Lemma js_gt_false_le (a b : jsnum) :
  is_NaN a = false → is_NaN b = false → js_gt a b = false → js_le a b = true.
Proof. intros. by apply js_lt_false_le. Qed.

(** ** Lists *)

Lemma elem_of_concat {A} (x : A) (ls : list (list A)) :
  x ∈ concat ls ↔ ∃ l, x ∈ l ∧ l ∈ ls.
Proof.
  rewrite list_elem_of_In, in_concat. split.
  - intros (l & Hl & Hx). exists l. by rewrite !list_elem_of_In.
  - intros (l & Hx & Hl). exists l. by rewrite <- !list_elem_of_In.
Qed.

Lemma elem_of_flat_map {A B} (f : A → list B) (l : list A) (y : B) :
  y ∈ flat_map f l ↔ ∃ x, x ∈ l ∧ y ∈ f x.
Proof.
  rewrite list_elem_of_In, in_flat_map. split.
  - intros (x & Hx & Hy). exists x. by rewrite !list_elem_of_In.
  - intros (x & Hx & Hy). exists x. by rewrite <- !list_elem_of_In.
Qed.

Section Properties.
Context `{T : Turf}.

(** ** The Mask Unifier *)

Lemma union_loop_fold (merged : option Feature) (fs : list Feature) :
  union_loop merged fs = fold_left union_or_keep fs merged.
Proof.
  revert merged. induction fs as [|feature rest IH]; intros merged; [done|].
  destruct merged as [m|]; simpl; rewrite IH; [|done].
  by destruct (turf_union m feature).
Qed.

(** C6. The Mask Unifier is a left fold over the features: none for the
    empty list; otherwise the first feature is the accumulator and each
    later feature replaces it by the union when the union returns, and
    leaves it as it is when the union throws. *)
Theorem unionMask_is_left_fold :
  unionMask [] = None ∧
  (∀ first rest, unionMask (first :: rest) = fold_left union_or_keep rest (Some first)) ∧
  (∀ fs, unionMask fs = unionMask_fold fs) ∧
  (∀ fs feature, unionMask (fs ++ [feature]) = union_or_keep (unionMask fs) feature) ∧
  (∀ acc feature u,
     turf_union acc feature = Ok u → union_or_keep (Some acc) feature = u) ∧
  (∀ acc feature,
     turf_union acc feature = Throw → union_or_keep (Some acc) feature = Some acc).
Proof.
  split_and!.
  - done.
  - intros first rest. unfold unionMask. simpl. apply union_loop_fold.
  - intros [|first rest]; [done|]. unfold unionMask. simpl. apply union_loop_fold.
  - intros fs feature. unfold unionMask.
    by rewrite !union_loop_fold, fold_left_app.
  - intros acc feature u H. simpl. by rewrite H.
  - intros acc feature H. simpl. by rewrite H.
Qed.

(** C9. On a one-element list the Mask Unifier returns the element itself.
    The statement holds for every implementation of the library, also one
    whose union throws on every call, and for every feature, also one
    without geometry: the only iteration assigns the feature to [merged],
    no union is attempted and nothing is validated or skipped. *)
Theorem unionMask_singleton (feature : Feature) :
  unionMask [feature] = Some feature.
Proof. reflexivity. Qed.

End Properties.

Section GapAssigner.
Context `{T : Turf}.

(** ** The scan for the nearest centroid *)

Lemma scan_step_inv gapCenter seen best entry best' :
  scan_inv gapCenter seen best →
  scan_step gapCenter best entry = Ok best' →
  scan_inv gapCenter (seen ++ [entry]) best'.
Proof.
  unfold scan_step. intros Hinv Hstep.
  destruct (turf_distance gapCenter (entry_centroid entry)) as [d|] eqn:Hd;
    [simpl in Hstep|done].
  destruct best as [b|]; simpl in Hinv.
  - destruct Hinv as (i & (e & Hi & Hf & Hdist) & Hall).
    destruct (js_lt d (best_distance b)) eqn:Hlt; simplify_eq; simpl.
    + exists (length seen). split.
      * exists entry. by rewrite lookup_app_r, Nat.sub_diag by lia.
      * intros j e' d' Hj Hd'. simpl.
        destruct (decide (j < length seen)) as [Hlen|Hlen].
        -- rewrite lookup_app_l in Hj by done.
           destruct (Hall j e' d' Hj Hd') as [Hnear _]. split.
           ++ destruct (js_lt d' d) eqn:E; [|done].
              by rewrite (js_lt_trans _ _ _ E Hlt) in Hnear.
           ++ intros _. destruct (js_le d' d) eqn:E; [|done].
              by rewrite (js_le_lt_trans _ _ _ E Hlt) in Hnear.
        -- rewrite lookup_app_r in Hj by lia.
           apply list_lookup_singleton_Some in Hj as [Hj ->].
           assert (d' = d) as -> by congruence.
           split; [apply js_lt_irrefl|lia].
    + exists i. split.
      * exists e. split_and!; [|done..].
        apply lookup_app_l_Some, Hi.
      * intros j e' d' Hj Hd'.
        destruct (decide (j < length seen)) as [Hlen|Hlen].
        -- rewrite lookup_app_l in Hj by done. eauto.
        -- rewrite lookup_app_r in Hj by lia.
           apply list_lookup_singleton_Some in Hj as [Hj ->].
           assert (d' = d) as -> by congruence.
           apply lookup_lt_Some in Hi. split; [done|lia].
  - subst seen. simplify_eq. simpl. exists 0. split.
    + by exists entry.
    + intros j e' d' Hj Hd'.
      apply list_lookup_singleton_Some in Hj as [-> ->].
      assert (d' = d) as -> by congruence.
      split; [apply js_lt_irrefl|lia].
Qed.

Lemma scan_preserves_inv gapCenter cache seen best r :
  scan_inv gapCenter seen best →
  scan gapCenter best cache = Ok r →
  scan_inv gapCenter (seen ++ cache) r.
Proof.
  revert seen best. induction cache as [|entry rest IH]; intros seen best Hinv Hscan.
  - simpl in Hscan. simplify_eq. by rewrite app_nil_r.
  - simpl in Hscan.
    destruct (scan_step gapCenter best entry) as [b|] eqn:Hstep; [|done].
    simpl in Hscan. rewrite (assoc_L (++) seen [entry] rest : seen ++ entry :: rest = _).
    eapply IH; [|done]. by eapply scan_step_inv.
Qed.

(** The scan returns when every distance is computed, and holds an entry
    as soon as it has seen one. *)
Lemma scan_total gapCenter cache best :
  (∀ e, e ∈ cache → ∃ d, turf_distance gapCenter (entry_centroid e) = Ok d) →
  ∃ r, scan gapCenter best cache = Ok r ∧ (best ≠ None ∨ cache ≠ [] → r ≠ None).
Proof.
  revert best. induction cache as [|entry rest IH]; intros best Hall.
  - exists best. split; [done|]. by intros [|].
  - destruct (Hall entry) as [d Hd]; [left|].
    assert (∃ b, scan_step gapCenter best entry = Ok (Some b)) as [b Hb].
    { unfold scan_step. rewrite Hd. simpl.
      destruct best as [b|]; [|by eauto].
      destruct (js_lt d (best_distance b)); eauto. }
    destruct (IH (Some b)) as (r & Hr & Hsome).
    { intros e He. apply Hall. by right. }
    exists r. simpl. rewrite Hb. simpl. split; [done|].
    intros _. apply Hsome. by left.
Qed.

(** ** The loop over the gaps *)

Lemma forEach_gap_spec gapAreaMax cache gaps additions r :
  forEach_gap gapAreaMax cache gaps additions = Ok r →
  ∃ pushes,
    Forall2 (λ gap pushed, assign_gap gapAreaMax cache gap = Ok pushed) gaps pushes ∧
    r = additions ++ concat pushes.
Proof.
  revert additions. induction gaps as [|gap rest IH]; intros additions H; simpl in H.
  - simplify_eq. exists []. by rewrite app_nil_r.
  - destruct (assign_gap gapAreaMax cache gap) as [pushed|] eqn:Hgap; [|done].
    simpl in H. destruct (IH _ H) as (pushes & Hall & ->).
    exists (pushed :: pushes). split; [by constructor|].
    simpl. by rewrite (assoc_L (++)).
Qed.

Lemma forEach_gap_ext max1 max2 cache gaps additions :
  (∀ gap, assign_gap max1 cache gap = assign_gap max2 cache gap) →
  forEach_gap max1 cache gaps additions = forEach_gap max2 cache gaps additions.
Proof.
  intros Hext. revert additions.
  induction gaps as [|gap rest IH]; intros additions; [done|].
  simpl. rewrite Hext. destruct (assign_gap max2 cache gap); [|done].
  simpl. apply IH.
Qed.

Lemma build_cache_features fs cache :
  build_cache fs = Ok cache → entry_feature <$> cache = fs.
Proof.
  revert cache. unfold build_cache.
  induction fs as [|f fs IH]; intros cache H; simpl in H.
  - by simplify_eq.
  - destruct (turf_centroid f) as [c|]; [|done]. simpl in H.
    destruct (map_throwing _ fs) as [cs|]; [|done]. simpl in H.
    simplify_eq. simpl. f_equal. by apply IH.
Qed.

End GapAssigner.

Section GapClaims.
Context `{T : Turf}.

Lemma assign_gap_pushed gapAreaMax cache gap pushed :
  assign_gap gapAreaMax cache gap = Ok pushed →
  ∃ area, turf_area gap = Ok area ∧
    if js_gt area gapAreaMax then pushed = []
    else ∀ a, a ∈ pushed →
           geometry a = geometry gap ∧
           ∃ e, e ∈ cache ∧ properties a = Some (properties_or_empty (entry_feature e)).
Proof.
  unfold assign_gap. intros H.
  destruct (turf_area gap) as [area|]; [|done]. simpl in H.
  exists area. split; [done|].
  destruct (js_gt area gapAreaMax); [by simplify_eq|].
  destruct (turf_centroid gap) as [gapCenter|]; [|done]. simpl in H.
  destruct (scan gapCenter None cache) as [best|] eqn:Hscan; [|done].
  simpl in H. simplify_eq.
  pose proof (scan_preserves_inv gapCenter cache [] None best eq_refl Hscan) as Hinv.
  destruct best as [b|]; simpl; [|by intros a Ha; apply elem_of_nil in Ha].
  intros a ->%list_elem_of_singleton. split; [done|].
  destruct Hinv as (i & (e & Hi & Hf & _) & _). simpl in Hi.
  exists e. split; [by eapply list_elem_of_lookup_2|]. simpl. by rewrite Hf.
Qed.

Lemma assignGapsToNearest_spec gapAreaMax clipped gaps additions :
  assignGapsToNearest gapAreaMax clipped gaps = Ok additions →
  (gaps = [] ∧ additions = []) ∨
  ∃ fs cache, features clipped = Some fs ∧ build_cache fs = Ok cache ∧
    forEach_gap gapAreaMax cache gaps [] = Ok additions.
Proof.
  unfold assignGapsToNearest. intros H.
  destruct gaps as [|gap0 rest]; [left; by simplify_eq|right].
  destruct (features clipped) as [fs|]; [|done].
  destruct (build_cache fs) as [cache|] eqn:Hcache; [|done].
  exists fs, cache. split_and!; [done..|exact H].
Qed.

(** C4. A gap whose area exceeds the configured maximum has nothing pushed
    for it; the features the Gap Assigner returns are, gap by gap, what
    the callback pushed, each with the geometry of a gap whose area does
    not exceed the maximum (and is at most the maximum when both are
    numbers other than NaN). *)
Theorem oversized_gap_is_dropped (gapAreaMax : jsnum) :
  (∀ cache gap area,
     turf_area gap = Ok area → js_gt area gapAreaMax = true →
     assign_gap gapAreaMax cache gap = Ok []) ∧
  (∀ clipped gaps additions,
     assignGapsToNearest gapAreaMax clipped gaps = Ok additions →
     ∃ pushes, additions = concat pushes ∧
       Forall2 (λ gap pushed, ∃ area, turf_area gap = Ok area ∧
                  if js_gt area gapAreaMax then pushed = []
                  else ∀ a, a ∈ pushed → geometry a = geometry gap)
               gaps pushes) ∧
  (∀ clipped gaps additions a,
     assignGapsToNearest gapAreaMax clipped gaps = Ok additions → a ∈ additions →
     ∃ gap area, gap ∈ gaps ∧ geometry a = geometry gap ∧
       turf_area gap = Ok area ∧ js_gt area gapAreaMax = false ∧
       (is_NaN area = false → is_NaN gapAreaMax = false →
        js_le area gapAreaMax = true)).
Proof.
  assert (∀ clipped gaps additions,
     assignGapsToNearest gapAreaMax clipped gaps = Ok additions →
     ∃ pushes, additions = concat pushes ∧
       Forall2 (λ gap pushed, ∃ area, turf_area gap = Ok area ∧
                  if js_gt area gapAreaMax then pushed = []
                  else ∀ a, a ∈ pushed → geometry a = geometry gap)
               gaps pushes) as Hlist.
  { intros clipped gaps additions H.
    apply assignGapsToNearest_spec in H as [[-> ->]|(fs & cache & _ & _ & H)];
      [by exists []|].
    apply forEach_gap_spec in H as (pushes & Hall & ->).
    exists pushes. split; [done|].
    eapply Forall2_impl; [exact Hall|]. intros gap pushed Hgap. simpl in Hgap.
    apply assign_gap_pushed in Hgap as (area & Harea & Hpushed).
    exists area. split; [done|].
    destruct (js_gt area gapAreaMax); [done|]. intros a Ha. by apply Hpushed. }
  split_and!.
  - intros cache gap area Harea Hgt. unfold assign_gap.
    rewrite Harea. simpl. by rewrite Hgt.
  - exact Hlist.
  - intros clipped gaps additions a H Ha.
    destruct (Hlist _ _ _ H) as (pushes & -> & Hall).
    apply elem_of_concat in Ha as (pushed & Ha & Hpushed).
    apply list_elem_of_lookup in Hpushed as [i Hi].
    destruct (Forall2_lookup_r _ _ _ _ _ Hall Hi) as (gap & Hgap & area & Harea & Hcase).
    exists gap, area. destruct (js_gt area gapAreaMax) eqn:Hgt.
    { subst pushed. by apply elem_of_nil in Ha. }
    split_and!; [by eapply list_elem_of_lookup_2|by apply Hcase|done|done|].
    intros. by apply js_gt_false_le.
Qed.

(** The callback on one gap: once the gap has passed the area filter and
    the library calls return, the feature pushed carries the properties of
    the cache entry at an index [i] such that no entry is strictly nearer
    to the gap centroid and no entry before [i] is as near. *)
Lemma assign_gap_nearest (gapAreaMax : jsnum) (gap : Feature) :
  (∀ pushed, assign_gap gapAreaMax [] gap = Ok pushed → pushed = []) ∧
  (∀ cache area gapCenter,
     turf_area gap = Ok area → js_gt area gapAreaMax = false →
     turf_centroid gap = Ok gapCenter → cache ≠ [] →
     (∀ e, e ∈ cache → ∃ d, turf_distance gapCenter (entry_centroid e) = Ok d) →
     ∃ i e d,
       cache !! i = Some e ∧
       turf_distance gapCenter (entry_centroid e) = Ok d ∧
       assign_gap gapAreaMax cache gap =
         Ok [mkFeature (Some (properties_or_empty (entry_feature e))) (geometry gap)] ∧
       ∀ j e' d', cache !! j = Some e' →
         turf_distance gapCenter (entry_centroid e') = Ok d' →
         js_lt d' d = false ∧
         (j < i → js_le d' d = false) ∧
         (is_NaN d = false → is_NaN d' = false → js_le d d' = true)).
Proof.
  split.
  - intros pushed H. unfold assign_gap in H.
    destruct (turf_area gap) as [area|]; [|done]. simpl in H.
    destruct (js_gt area gapAreaMax); [by simplify_eq|].
    destruct (turf_centroid gap) as [gapCenter|]; [|done]. simpl in H.
    by simplify_eq.
  - intros cache area gapCenter Harea Hgt Hcenter Hne Hdist.
    destruct (scan_total gapCenter cache None Hdist) as (r & Hscan & Hsome).
    destruct r as [b|]; [|by destruct Hsome; [right|]].
    pose proof (scan_preserves_inv gapCenter cache [] None (Some b) eq_refl Hscan)
      as (i & (e & Hi & Hf & Hd) & Hall).
    simpl in Hi, Hall. exists i, e, (best_distance b). split_and!; [done..| |].
    + unfold assign_gap. rewrite Harea. simpl. rewrite Hgt, Hcenter. simpl.
      rewrite Hscan. simpl. by rewrite Hf.
    + intros j e' d' Hj Hd'. destruct (Hall j e' d' Hj Hd') as [Hnear Hfirst].
      split_and!; [done..|]. intros. by apply js_lt_false_le.
Qed.

Lemma build_cache_total (fs : list Feature) :
  (∀ f, f ∈ fs → ∃ c, turf_centroid f = Ok c) →
  ∃ cache, build_cache fs = Ok cache ∧
    Forall2 (λ f e, entry_feature e = f ∧ turf_centroid f = Ok (entry_centroid e))
            fs cache.
Proof.
  unfold build_cache. induction fs as [|f fs IH]; intros Hok; [by exists []|].
  destruct (Hok f) as [c Hc]; [left|].
  destruct IH as (cache & Hcache & Hall); [intros; apply Hok; by right|].
  exists (mkEntry f c :: cache). simpl. rewrite Hc. simpl. rewrite Hcache.
  split; [done|]. by constructor.
Qed.

Lemma forEach_gap_total gapAreaMax cache gaps pushes additions :
  Forall2 (λ gap pushed, assign_gap gapAreaMax cache gap = Ok pushed) gaps pushes →
  forEach_gap gapAreaMax cache gaps additions = Ok (additions ++ concat pushes).
Proof.
  intros Hall. revert additions.
  induction Hall as [|gap pushed gaps pushes Hgap _ IH]; intros additions; simpl.
  - by rewrite app_nil_r.
  - rewrite Hgap. simpl. by rewrite IH, (assoc_L (++)).
Qed.

(** What the Gap Assigner does with one gap, in terms of the candidate
    features: the statement of C5 for that gap. *)
Lemma assign_gap_candidates gapAreaMax (fs : list Feature) (cache : list CacheEntry)
    (gap : Feature) (area : jsnum) :
  Forall2 (λ f e, entry_feature e = f ∧ turf_centroid f = Ok (entry_centroid e))
          fs cache →
  turf_area gap = Ok area →
  (js_gt area gapAreaMax = false →
   ∃ gapCenter, turf_centroid gap = Ok gapCenter ∧
     ∀ f c, f ∈ fs → turf_centroid f = Ok c →
            ∃ d, turf_distance gapCenter c = Ok d) →
  ∃ pushed, assign_gap gapAreaMax cache gap = Ok pushed ∧
    if js_gt area gapAreaMax then pushed = []
    else ∃ gapCenter, turf_centroid gap = Ok gapCenter ∧
           match fs with
           | [] => pushed = []
           | _ => ∃ i f, nearest_candidate gapCenter fs i f ∧
                         pushed = [mkFeature (Some (properties_or_empty f))
                                             (geometry gap)]
           end.
Proof.
  intros Hcache Harea Hcalls.
  destruct (js_gt area gapAreaMax) eqn:Hgt.
  { exists []. split; [|done]. unfold assign_gap. rewrite Harea. simpl.
    by rewrite Hgt. }
  destruct (Hcalls eq_refl) as (gapCenter & Hcenter & Hdist).
  destruct fs as [|f0 fs0].
  { apply Forall2_nil_inv_l in Hcache as ->. exists []. split.
    - unfold assign_gap. rewrite Harea. simpl. rewrite Hgt, Hcenter. done.
    - by exists gapCenter. }
  assert (cache ≠ []) as Hne by (intros ->; by apply Forall2_nil_inv_r in Hcache).
  destruct (proj2 (assign_gap_nearest gapAreaMax gap) cache area gapCenter
              Harea Hgt Hcenter Hne) as (i & e & d & Hi & Hd & Hpushed & Hall).
  { intros e [j He]%list_elem_of_lookup.
    destruct (Forall2_lookup_r _ _ _ _ _ Hcache He) as (f & Hf & _ & Hc).
    eapply Hdist; [by eapply list_elem_of_lookup_2|done]. }
  destruct (Forall2_lookup_r _ _ _ _ _ Hcache Hi) as (f & Hf & Hef & Hc).
  eexists. split; [exact Hpushed|]. exists gapCenter. split; [done|].
  exists i, f. rewrite Hef. split; [|done].
  exists (entry_centroid e), d. split_and!; [done..|].
  intros j f' c' d' Hj Hc' Hd'.
  destruct (Forall2_lookup_l _ _ _ _ _ Hcache Hj) as (e' & He' & _ & Hc'').
  rewrite Hc' in Hc''. simplify_eq. by apply (Hall j e').
Qed.

(** C5. The Gap Assigner, from the candidate features to the additions.
    With no candidate nothing is added.  When the library calls return
    (the centroid of every candidate, the area of every gap and, for a gap
    that passes the area filter, its centroid and its distance to every
    candidate centroid), the Gap Assigner returns, and what it returns is,
    gap by gap in order: nothing for a gap over the maximum, nothing when
    there is no candidate, and otherwise one feature with the geometry of
    the gap and the properties of the candidate at an index [i] such that
    no candidate centroid is strictly nearer to the gap centroid, none
    before [i] is as near (on a tie the earlier candidate wins: the
    comparison is [<]), and the distance of [i] is the minimum whenever the
    distances are numbers other than NaN. *)
Theorem nearest_centroid_first_wins (gapAreaMax : jsnum) (clipped : GeoDoc)
    (fs gaps : list Feature) :
  features clipped = Some fs →
  (∀ additions, fs = [] →
     assignGapsToNearest gapAreaMax clipped gaps = Ok additions → additions = []) ∧
  ((∀ f, f ∈ fs → ∃ c, turf_centroid f = Ok c) →
   (∀ gap, gap ∈ gaps →
      ∃ area, turf_area gap = Ok area ∧
        (js_gt area gapAreaMax = false →
         ∃ gapCenter, turf_centroid gap = Ok gapCenter ∧
           ∀ f c, f ∈ fs → turf_centroid f = Ok c →
                  ∃ d, turf_distance gapCenter c = Ok d)) →
   ∃ pushes,
     assignGapsToNearest gapAreaMax clipped gaps = Ok (concat pushes) ∧
     Forall2 (λ gap pushed,
                ∃ area, turf_area gap = Ok area ∧
                  if js_gt area gapAreaMax then pushed = []
                  else ∃ gapCenter, turf_centroid gap = Ok gapCenter ∧
                         match fs with
                         | [] => pushed = []
                         | _ => ∃ i f, nearest_candidate gapCenter fs i f ∧
                                  pushed = [mkFeature (Some (properties_or_empty f))
                                                      (geometry gap)]
                         end)
             gaps pushes).
Proof.
  intros Hfs. split.
  - intros additions -> H.
    apply assignGapsToNearest_spec in H as [[_ ->]|(fs' & cache & Hfs' & Hcache & H)];
      [done|].
    rewrite Hfs in Hfs'. simplify_eq.
    apply build_cache_features, fmap_nil_inv in Hcache as ->.
    apply forEach_gap_spec in H as (pushes & Hall & ->). simpl.
    destruct (concat pushes) as [|a rest] eqn:E; [done|].
    assert (a ∈ concat pushes) as (pushed & Ha & Hpushed)%elem_of_concat
      by (rewrite E; left).
    apply list_elem_of_lookup in Hpushed as [i Hi].
    destruct (Forall2_lookup_r _ _ _ _ _ Hall Hi) as (gap & _ & Hgap).
    apply assign_gap_pushed in Hgap as (area & _ & Hcase).
    destruct (js_gt area gapAreaMax); [subst; by apply elem_of_nil in Ha|].
    destruct (Hcase a Ha) as (_ & e & He%elem_of_nil & _). done.
  - intros Hcentroids Hgaps.
    destruct (build_cache_total fs Hcentroids) as (cache & Hcache & Hentries).
    assert (∃ pushes,
      Forall2 (λ gap pushed, assign_gap gapAreaMax cache gap = Ok pushed) gaps pushes ∧
      Forall2 (λ gap pushed,
                ∃ area, turf_area gap = Ok area ∧
                  if js_gt area gapAreaMax then pushed = []
                  else ∃ gapCenter, turf_centroid gap = Ok gapCenter ∧
                         match fs with
                         | [] => pushed = []
                         | _ => ∃ i f, nearest_candidate gapCenter fs i f ∧
                                  pushed = [mkFeature (Some (properties_or_empty f))
                                                      (geometry gap)]
                         end)
             gaps pushes) as (pushes & Hrun & Hall).
    { clear Hfs. induction gaps as [|gap gaps IH]; [by exists []|].
      destruct IH as (pushes & Hrun & Hall); [intros; apply Hgaps; by right|].
      destruct (Hgaps gap) as (area & Harea & Hcalls); [left|].
      destruct (assign_gap_candidates gapAreaMax fs cache gap area
                  Hentries Harea Hcalls) as (pushed & Hpushed & Hcase).
      exists (pushed :: pushes). split; constructor; [done..| |done].
      by exists area. }
    exists pushes. split; [|done].
    unfold assignGapsToNearest. destruct gaps as [|gap0 rest].
    { by apply Forall2_nil_inv_l in Hrun as ->. }
    rewrite Hfs, Hcache.
    apply (forEach_gap_total gapAreaMax cache (gap0 :: rest) pushes [] Hrun).
Qed.

(** C10. When GAP_AREA_MAX is set to a non-empty string that [Number] turns
    into NaN, the configured maximum is NaN, no area exceeds it, the
    callback never takes the discarding branch, and the Gap Assigner
    returns what it returns for the unbounded default. *)
Theorem unparsable_gap_area_max_filters_nothing (env : Env) (s : string) :
  GAP_AREA_MAX_var env = Some s → s ≠ "" → js_Number s = NaN →
  GAP_AREA_MAX env = NaN ∧
  (∀ area, js_gt area (GAP_AREA_MAX env) = false) ∧
  (∀ cache gap,
     assign_gap (GAP_AREA_MAX env) cache gap =
       (_ ← turf_area gap; assign_unfiltered cache gap)) ∧
  (∀ clipped gaps,
     assignGapsToNearest (GAP_AREA_MAX env) clipped gaps =
       assignGapsToNearest PosInf clipped gaps).
Proof.
  intros Hvar Hne Hnum.
  assert (GAP_AREA_MAX env = NaN) as ->.
  { unfold GAP_AREA_MAX. rewrite Hvar.
    destruct (String.eqb_spec s ""); [done|]. exact Hnum. }
  assert (∀ m cache gap, (∀ area, js_gt area m = false) →
            assign_gap m cache gap = (_ ← turf_area gap; assign_unfiltered cache gap))
    as Hskip.
  { intros m cache gap Hm. unfold assign_gap.
    destruct (turf_area gap) as [area|]; [|done]. simpl. by rewrite Hm. }
  split_and!; [done|apply js_gt_NaN|..].
  - intros. apply Hskip, js_gt_NaN.
  - intros clipped gaps. unfold assignGapsToNearest.
    destruct gaps as [|gap0 rest]; [done|].
    destruct (features clipped) as [fs|]; [|done].
    destruct (build_cache fs) as [cache|]; [|done].
    apply (forEach_gap_ext NaN PosInf cache (gap0 :: rest) []). intros gap.
    by rewrite !Hskip by (apply js_gt_NaN || apply js_gt_PosInf).
Qed.

End GapClaims.

Section RunClaims.
Context `{T : Turf}.

(** C7. In mode [none] the first document written is the postal document
    as it was read.  The statement holds for every implementation of the
    library and whatever mask files exist or not: no mask is loaded,
    unified, clipped against or searched for gaps. *)
Theorem mode_none_output_is_input (env : Env) (files : Files) (postalData : GeoDoc) :
  CLIP_MODE_var env = Some "none" →
  loadGeoJSON files (Some POSTAL_PATH) = Ok postalData →
  compute_output env files postalData = Ok postalData ∧
  clipped_file (run env files) = Some postalData.
Proof.
  intros Hmode Hload.
  assert (CLIP_MODE env = "none") as Hm by (unfold CLIP_MODE; by rewrite Hmode).
  assert (compute_output env files postalData = Ok postalData) as Hout.
  { unfold compute_output. by rewrite Hm. }
  split; [done|]. unfold run. rewrite Hm, Hload. simpl. rewrite Hout.
  by destruct (features postalData).
Qed.

(** C8. Whatever regions the features stand for, if the box returned by
    [bbox] contains the region of its feature, then a postal feature that
    shares a point with the mask passes the prefilter, and its iteration
    goes on to the exact intersection. *)
Theorem bbox_prefilter_keeps_overlaps
    (region : Feature → Position → Prop)
    (bbox_contains : ∀ f b p, turf_bbox f = Ok b → region f p → in_bbox b p)
    (feature landMask : Feature) (featureBbox landBbox : BBox) (p : Position) :
  turf_bbox feature = Ok featureBbox →
  turf_bbox landMask = Ok landBbox →
  region feature p → region landMask p →
  overlaps featureBbox landBbox = true ∧
  (geometry feature ≠ None →
   clip_feature landMask landBbox feature =
     try_catch (intersected ← turf_intersect feature landMask;
                Ok (clip_push feature intersected)) []).
Proof.
  intros Hf Hm Hpf Hpm.
  destruct (bbox_contains _ _ _ Hf Hpf) as (F0 & F2 & F1 & F3).
  destruct (bbox_contains _ _ _ Hm Hpm) as (M0 & M2 & M1 & M3).
  assert (overlaps featureBbox landBbox = true) as Hov.
  { unfold overlaps, js_ge.
    rewrite (js_le_trans _ _ _ F0 M2), (js_le_trans _ _ _ M0 F2),
            (js_le_trans _ _ _ F1 M3), (js_le_trans _ _ _ M1 F3). done. }
  split; [done|]. intros Hg. unfold clip_feature.
  destruct (geometry feature); [|done]. rewrite Hf. simpl. by rewrite Hov.
Qed.

End RunClaims.

Section Dissolver.
Context `{T : Turf}.

(** ** Codes *)

Lemma postnummer_singleton (k : jsval) (g : option Geometry) :
  postnummer (mkFeature (Some {[ "postnummer" := k ]}) g) = Some k.
Proof. unfold postnummer. simpl. apply lookup_singleton_eq. Qed.

Lemma postnummer_object_code (v : option jsval) (g : option Geometry) :
  postnummer (mkFeature (Some (postnummer_object v)) g) = v.
Proof.
  destruct v as [k|]; simpl; [apply postnummer_singleton|].
  unfold postnummer. simpl. apply lookup_empty.
Qed.

Lemma postnummer_inherited (f : Feature) (g : option Geometry) :
  postnummer (mkFeature (Some (properties_or_empty f)) g) = postnummer f.
Proof.
  unfold postnummer, properties_or_empty. simpl.
  destruct (properties f); [done|]. simpl. apply lookup_empty.
Qed.

Lemma codes_from_refl (l : list Feature) : codes_from l l.
Proof. intros d Hd. by exists d. Qed.

Lemma codes_from_trans (l1 l2 l3 : list Feature) :
  codes_from l1 l2 → codes_from l2 l3 → codes_from l1 l3.
Proof.
  intros H12 H23 d Hd. destruct (H12 d Hd) as (f & Hf & E).
  destruct (H23 f Hf) as (f' & Hf' & E'). exists f'. split; [done|congruence].
Qed.

Lemma codes_from_app (l1 l2 l : list Feature) :
  codes_from l1 l → codes_from l2 l → codes_from (l1 ++ l2) l.
Proof. intros H1 H2 d [Hd|Hd]%elem_of_app; eauto. Qed.

(** ** The Map of groups *)

Lemma group_push_fresh k feature grouped :
  k ∉ grouped.*1 → group_push k feature grouped = grouped ++ [(k, [feature])].
Proof.
  induction grouped as [|[k' group] rest IH]; intros Hk; [done|].
  simpl in *. apply not_elem_of_cons in Hk as [Hne Hk].
  destruct (decide (k = k')); [done|]. by rewrite IH.
Qed.

Lemma group_push_keys k feature grouped :
  (group_push k feature grouped).*1 =
    if decide (k ∈ grouped.*1) then grouped.*1 else grouped.*1 ++ [k].
Proof.
  induction grouped as [|[k' group] rest IH]; [done|]. cbn [group_push].
  destruct (decide (k = k')) as [->|Hne]; rewrite !fmap_cons; cbn [fst].
  - rewrite decide_True; [done|left].
  - rewrite IH. destruct (decide (k ∈ rest.*1)) as [Hin|Hin].
    + rewrite decide_True; [done|by right].
    + rewrite decide_False; [done|].
      intros [?|?]%elem_of_cons; done.
Qed.

Lemma group_by_postnummer_snoc fs feature :
  group_by_postnummer (fs ++ [feature]) = group_step (group_by_postnummer fs) feature.
Proof. unfold group_by_postnummer. by rewrite fold_left_app. Qed.

(** The keys of the Map are distinct and truthy, and each is the code of a
    feature that was grouped. *)
Lemma group_by_postnummer_keys fs :
  NoDup (group_by_postnummer fs).*1 ∧
  ∀ k, k ∈ (group_by_postnummer fs).*1 →
       truthy k = true ∧ ∃ f, f ∈ fs ∧ postnummer f = Some k.
Proof.
  induction fs as [|feature fs IH] using rev_ind.
  - split; [constructor|]. by intros k Hk%elem_of_nil.
  - destruct IH as [Hnodup Hkeys]. rewrite group_by_postnummer_snoc.
    assert (∀ k, (∃ f, f ∈ fs ∧ postnummer f = Some k) →
                 ∃ f, f ∈ fs ++ [feature] ∧ postnummer f = Some k) as Hmono.
    { intros k (f & Hf & E). exists f. split; [|done].
      apply elem_of_app. by left. }
    unfold group_step.
    destruct (postnummer feature) as [k|] eqn:Hcode;
      [destruct (truthy k) eqn:Htruthy|].
    + rewrite group_push_keys.
      destruct (decide (k ∈ (group_by_postnummer fs).*1)) as [Hin|Hin].
      * split; [done|]. intros k' Hk'. destruct (Hkeys k' Hk'). eauto.
      * split.
        -- apply NoDup_app. split_and!; [done| |apply NoDup_singleton].
           intros x Hx ->%list_elem_of_singleton. done.
        -- intros k' [Hk'| ->%list_elem_of_singleton]%elem_of_app.
           ++ destruct (Hkeys k' Hk'). eauto.
           ++ split; [done|]. exists feature. split; [|done].
              apply elem_of_app. right. by left.
    + split; [done|]. intros k' Hk'. destruct (Hkeys k' Hk'). eauto.
    + split; [done|]. intros k' Hk'. destruct (Hkeys k' Hk'). eauto.
Qed.

(** ** What the Dissolver emits *)

Lemma dissolve_group_cases (entry : jsval * list Feature) :
  dissolve_group entry = [] ∨
  ∃ g, dissolve_group entry = [mkFeature (Some {[ "postnummer" := entry.1 ]}) (Some g)].
Proof.
  unfold dissolve_group. destruct (union_loop None entry.2) as [merged|]; [|by left].
  destruct (geometry merged) as [g|]; [right; by exists g|by left].
Qed.

Lemma dissolved_sublist (grouped : list (jsval * list Feature)) :
  (postnummer <$> flat_map dissolve_group grouped) `sublist_of` (Some <$> grouped.*1).
Proof.
  induction grouped as [|entry rest IH]; [done|]. simpl.
  destruct (dissolve_group_cases entry) as [->|[g ->]]; simpl.
  - by apply sublist_cons.
  - rewrite postnummer_singleton. by apply sublist_skip.
Qed.

Lemma dissolved_shape (grouped : list (jsval * list Feature)) (d : Feature) :
  d ∈ flat_map dissolve_group grouped →
  ∃ k g, k ∈ grouped.*1 ∧ d = mkFeature (Some {[ "postnummer" := k ]}) (Some g).
Proof.
  intros ([k group] & Hentry & Hd)%elem_of_flat_map.
  destruct (dissolve_group_cases (k, group)) as [E|[g E]]; rewrite E in Hd.
  - by apply elem_of_nil in Hd.
  - apply list_elem_of_singleton in Hd. exists k, g. split; [|done].
    apply list_elem_of_fmap. by exists (k, group).
Qed.

(** The specification's invariant: the codes of the dissolved features are
    pairwise distinct. *)
Lemma dissolved_codes_NoDup fs : NoDup (postnummer <$> dissolveByPostnummer fs).
Proof.
  eapply sublist_NoDup; [|apply dissolved_sublist].
  apply (NoDup_fmap_2 _). apply group_by_postnummer_keys.
Qed.

Lemma dissolved_is_emitted fs d :
  d ∈ dissolveByPostnummer fs →
  ∃ k g, d = mkFeature (Some {[ "postnummer" := k ]}) (Some g) ∧ truthy k = true ∧
         ∃ f, f ∈ fs ∧ postnummer f = Some k.
Proof.
  intros (k & g & Hk & ->)%dissolved_shape.
  destruct (group_by_postnummer_keys fs) as [_ Hkeys].
  destruct (Hkeys k Hk) as [Htruthy Hf]. by exists k, g.
Qed.

(** ** A second pass *)

Lemma group_by_postnummer_solo (l : list Feature) :
  (∀ d, d ∈ l → ∃ k, postnummer d = Some k ∧ truthy k = true) →
  NoDup (postnummer <$> l) →
  group_by_postnummer l = solo <$> l.
Proof.
  induction l as [|d l IH] using rev_ind; intros Hcodes Hnodup; [done|].
  rewrite fmap_app in Hnodup. apply NoDup_app in Hnodup as (Hnodup & Hfresh & _).
  rewrite group_by_postnummer_snoc, IH, fmap_app; [|set_solver|done].
  destruct (Hcodes d) as (k & Hk & Htruthy); [set_solver|].
  unfold group_step. rewrite Hk, Htruthy. simpl.
  rewrite group_push_fresh.
  - f_equal. change (solo <$> [d]) with [solo d]. unfold solo. by rewrite Hk.
  - intros ([k' group] & Hfst & Hin)%list_elem_of_fmap. simpl in Hfst. subst k'.
    apply list_elem_of_fmap in Hin as (d' & Hsolo & Hd').
    destruct (Hcodes d') as (k' & Hk' & _); [set_solver|].
    unfold solo in Hsolo. rewrite Hk' in Hsolo. simplify_eq.
    apply (Hfresh (Some k')).
    + apply list_elem_of_fmap. by exists d'.
    + apply list_elem_of_fmap. exists d. split; [by rewrite Hk|left].
Qed.

Lemma dissolve_solo (l : list Feature) :
  (∀ d, d ∈ l → ∃ k g, d = mkFeature (Some {[ "postnummer" := k ]}) (Some g)) →
  flat_map dissolve_group (solo <$> l) = l.
Proof.
  induction l as [|d l IH]; intros Hshape; [done|].
  destruct (Hshape d) as (k & g & ->); [left|].
  rewrite fmap_cons. simpl. rewrite IH by (intros; apply Hshape; by right).
  unfold solo, dissolve_group. by rewrite postnummer_singleton.
Qed.

(** C2. The Dissolver is idempotent: a second pass over its own output
    returns that output, feature by feature, with the same codes and the
    same geometries. *)
Theorem dissolve_idempotent (fs : list Feature) :
  dissolveByPostnummer (dissolveByPostnummer fs) = dissolveByPostnummer fs.
Proof.
  unfold dissolveByPostnummer at 1.
  rewrite group_by_postnummer_solo.
  - apply dissolve_solo. intros d (k & g & -> & _)%dissolved_is_emitted. eauto.
  - intros d (k & g & -> & Htruthy & _)%dissolved_is_emitted.
    exists k. by rewrite postnummer_singleton.
  - apply dissolved_codes_NoDup.
Qed.

End Dissolver.

Section Labels.
Context `{T : Turf}.

(** ** The Label Builder *)

Lemma label_feature_cases (d : Feature) :
  match turf_centroid d with
  | Ok c => label_feature d =
              [mkFeature (Some (postnummer_object (postnummer d))) (geometry c)]
  | Throw => label_feature d = []
  end.
Proof. unfold label_feature. by destruct (turf_centroid d). Qed.

Lemma label_feature_code (d l : Feature) :
  l ∈ label_feature d → postnummer l = postnummer d.
Proof.
  pose proof (label_feature_cases d) as H.
  destruct (turf_centroid d); rewrite H.
  - intros ->%list_elem_of_singleton. apply postnummer_object_code.
  - by intros ?%elem_of_nil.
Qed.

Lemma labels_codes_from (ds : list Feature) :
  codes_from (buildLabelPoints (FeatureCollection ds)) ds.
Proof.
  intros l (d & Hd & Hl)%elem_of_flat_map. exists d.
  split; [done|]. by apply label_feature_code.
Qed.

Lemma labels_of_app (d : Feature) (l1 l2 : list Feature) :
  labels_of d (l1 ++ l2) = labels_of d l1 + labels_of d l2.
Proof. unfold labels_of. by rewrite filter_app, length_app. Qed.

Lemma labels_of_other (d x : Feature) :
  postnummer x ≠ postnummer d → labels_of d (label_feature x) = 0.
Proof.
  intros Hne. pose proof (label_feature_cases x) as H.
  destruct (turf_centroid x); rewrite H; [|done].
  unfold labels_of. rewrite filter_cons_False; [done|].
  by rewrite postnummer_object_code.
Qed.

Lemma labels_of_self (d : Feature) :
  labels_of d (label_feature d) =
    match turf_centroid d with Ok _ => 1 | Throw => 0 end.
Proof.
  pose proof (label_feature_cases d) as H.
  destruct (turf_centroid d); rewrite H; [|done].
  unfold labels_of. rewrite filter_cons_True; [done|].
  by rewrite postnummer_object_code.
Qed.

Lemma labels_of_absent (d : Feature) (ds : list Feature) :
  postnummer d ∉ postnummer <$> ds →
  labels_of d (flat_map label_feature ds) = 0.
Proof.
  induction ds as [|x ds IH]; [done|]. rewrite fmap_cons.
  intros [Hne Hnotin]%not_elem_of_cons. simpl.
  rewrite labels_of_app, IH, labels_of_other; done.
Qed.

Lemma labels_of_present (d : Feature) (ds : list Feature) :
  NoDup (postnummer <$> ds) → d ∈ ds →
  labels_of d (flat_map label_feature ds) =
    match turf_centroid d with Ok _ => 1 | Throw => 0 end.
Proof.
  induction ds as [|x ds IH]; [by intros _ ?%elem_of_nil|].
  rewrite fmap_cons. intros [Hfresh Hnodup]%NoDup_cons Hd. simpl.
  rewrite labels_of_app. apply elem_of_cons in Hd as [->|Hd].
  - rewrite labels_of_self, labels_of_absent by done. lia.
  - rewrite labels_of_other, IH; [done..|].
    intros E. apply Hfresh. rewrite E. by apply list_elem_of_fmap_2.
Qed.

(** C3, as the code has it.  Every label point carries the code of a
    dissolved feature.  A dissolved feature whose centroid is computed has
    its code on exactly one label point; one whose centroid computation
    throws has its code on none.  When no centroid computation throws the
    codes are in bijection. *)
Theorem labels_follow_dissolved (fs : list Feature) :
  let dissolved := dissolveByPostnummer fs in
  let labels := buildLabelPoints (FeatureCollection dissolved) in
  (∀ l, l ∈ labels → ∃ d, d ∈ dissolved ∧ postnummer d = postnummer l) ∧
  (∀ d, d ∈ dissolved →
        labels_of d labels = match turf_centroid d with Ok _ => 1 | Throw => 0 end) ∧
  ((∀ d, d ∈ dissolved → turf_centroid d ≠ Throw) →
   codes_in_bijection dissolved labels).
Proof.
  intros dissolved labels.
  assert (∀ l, l ∈ labels → ∃ d, d ∈ dissolved ∧ postnummer d = postnummer l) as H1.
  { intros l Hl. destruct (labels_codes_from dissolved l Hl) as (d & Hd & E).
    by exists d. }
  assert (∀ d, d ∈ dissolved →
     labels_of d labels = match turf_centroid d with Ok _ => 1 | Throw => 0 end) as H2.
  { intros d Hd. apply labels_of_present; [apply dissolved_codes_NoDup|done]. }
  split_and!; [done..|]. intros Hok. split; [done|].
  intros d Hd. rewrite (H2 d Hd). specialize (Hok d Hd).
  by destruct (turf_centroid d).
Qed.

End Labels.

Section Run.
Context `{T : Turf}.

(** ** Where the codes of a run come from *)

Lemma inherited_code (a f : Feature) :
  properties a = Some (properties_or_empty f) → postnummer a = postnummer f.
Proof.
  intros H. rewrite <- (postnummer_inherited f (geometry a)).
  unfold postnummer. by rewrite H.
Qed.

Lemma clip_feature_code landMask landBbox feature c :
  c ∈ clip_feature landMask landBbox feature → postnummer c = postnummer feature.
Proof.
  unfold clip_feature. destruct (geometry feature); [|by intros ?%elem_of_nil].
  destruct (turf_bbox feature) as [featureBbox|]; simpl; [|by intros ?%elem_of_nil].
  destruct (overlaps featureBbox landBbox); simpl; [|by intros ?%elem_of_nil].
  destruct (turf_intersect feature landMask) as [[i|]|]; simpl;
    [|by intros ?%elem_of_nil..].
  destruct (geometry i); [|by intros ?%elem_of_nil].
  intros ->%list_elem_of_singleton. apply postnummer_inherited.
Qed.

Lemma clipPostalCodes_codes postalData landMask clipped :
  clipPostalCodes postalData landMask = Ok clipped →
  codes_from clipped (features_or_nil postalData).
Proof.
  unfold clipPostalCodes. destruct (turf_bbox landMask) as [landBbox|]; [|done].
  simpl. intros [= <-] c (f & Hf & Hc)%elem_of_flat_map.
  exists f. split; [done|]. by eapply clip_feature_code.
Qed.

Lemma assignGapsToNearest_codes gapAreaMax clipped gaps additions :
  assignGapsToNearest gapAreaMax clipped gaps = Ok additions →
  codes_from additions (features_or_nil clipped).
Proof.
  intros [[_ ->]|(fs & cache & Hfs & Hcache & H)]%assignGapsToNearest_spec;
    [by intros a ?%elem_of_nil|].
  apply forEach_gap_spec in H as (pushes & Hall & ->). simpl.
  intros a (pushed & Ha & Hpushed)%elem_of_concat.
  apply list_elem_of_lookup in Hpushed as [i Hi].
  destruct (Forall2_lookup_r _ _ _ _ _ Hall Hi) as (gap & _ & Hgap).
  apply assign_gap_pushed in Hgap as (area & _ & Hcase).
  destruct (js_gt area gapAreaMax); [subst; by apply elem_of_nil in Ha|].
  destruct (Hcase a Ha) as (_ & e & He & Hprops).
  exists (entry_feature e). split; [|by apply inherited_code].
  unfold features_or_nil. rewrite Hfs. simpl.
  rewrite <- (build_cache_features _ _ Hcache). by apply list_elem_of_fmap_2.
Qed.

Lemma compute_output_codes env files postalData output :
  compute_output env files postalData = Ok output →
  codes_from (features_or_nil output) (features_or_nil postalData).
Proof.
  unfold compute_output.
  destruct (String.eqb (CLIP_MODE env) "none"); [intros [= <-]; apply codes_from_refl|].
  destruct (String.eqb (CLIP_MODE env) "gapfill-border").
  - destruct (negb _); [done|].
    destruct (loadGeoJSON files _) as [maskData|]; [|done]. simpl.
    destruct (unionMask (normalizeMask maskData)) as [borderMask|]; [|done].
    destruct (buildGapFeatures _ _) as [gaps|]; [|done]. simpl.
    destruct (assignGapsToNearest _ _ gaps) as [additions|] eqn:Hadd; [|done].
    simpl. intros [= <-]. apply codes_from_app; [apply codes_from_refl|].
    by eapply assignGapsToNearest_codes.
  - destruct (loadGeoJSON files _) as [maskData|]; [|done]. simpl.
    destruct (unionMask (normalizeMask maskData)) as [landMask|]; [|done].
    destruct (clipPostalCodes postalData landMask) as [clipped|] eqn:Hclip; [|done].
    simpl. apply clipPostalCodes_codes in Hclip.
    destruct (String.eqb (CLIP_MODE env) "coast"); [|by intros [= <-]].
    destruct (buildGapFeatures _ _) as [gaps|]; [|done]. simpl.
    destruct (assignGapsToNearest _ _ gaps) as [additions|] eqn:Hadd; [|done].
    simpl. intros [= <-]. apply codes_from_app; [done|].
    eapply codes_from_trans; [|exact Hclip].
    apply (assignGapsToNearest_codes _ _ _ _ Hadd).
Qed.

(** What a run writes, when it gets as far as dissolving. *)
Lemma run_written env files ds ls :
  dissolved_file (run env files) = Some ds ∨ labels_file (run env files) = Some ls →
  ∃ postalData output fs,
    loadGeoJSON files (Some POSTAL_PATH) = Ok postalData ∧
    compute_output env files postalData = Ok output ∧
    features output = Some fs ∧
    dissolved_file (run env files) = Some (FeatureCollection (dissolveByPostnummer fs)) ∧
    labels_file (run env files) =
      Some (FeatureCollection
              (buildLabelPoints (FeatureCollection (dissolveByPostnummer fs)))).
Proof.
  unfold run. destruct (_ && _); [by intros [|]|].
  destruct (loadGeoJSON files (Some POSTAL_PATH)) as [postalData|] eqn:Hload;
    [|by intros [|]].
  simpl. destruct (compute_output env files postalData) as [output|] eqn:Hout;
    [|by intros [|]].
  destruct (features output) as [fs|] eqn:Hfs; [|by intros [|]].
  intros _. by exists postalData, output, fs.
Qed.

(** C1. In every mode (so in every mode other than [none]), each code in
    the dissolved document and each code in the label document of a run
    is a code of the postal feature collection that was read. *)
Theorem output_codes_come_from_input (env : Env) (files : Files)
    (postalData : GeoDoc) (d : Feature) :
  loadGeoJSON files (Some POSTAL_PATH) = Ok postalData →
  (∃ ds, dissolved_file (run env files) = Some ds ∧ d ∈ features_or_nil ds) ∨
  (∃ ls, labels_file (run env files) = Some ls ∧ d ∈ features_or_nil ls) →
  ∃ k f, postnummer d = Some k ∧ f ∈ features_or_nil postalData ∧
         postnummer f = Some k.
Proof.
  intros Hload Hd.
  assert (∃ output fs, compute_output env files postalData = Ok output ∧
            features output = Some fs ∧
            (d ∈ dissolveByPostnummer fs ∨
             d ∈ buildLabelPoints (FeatureCollection (dissolveByPostnummer fs))))
    as (output & fs & Hout & Hfs & Hin).
  { destruct Hd as [(ds & Hds & Hd)|(ls & Hls & Hd)].
    - destruct (run_written env files ds ds) as (pd & output & fs & L & O & F & D & _);
        [by left|].
      exists output, fs. split_and!; [congruence|done|left]. 
      rewrite D in Hds. by simplify_eq.
    - destruct (run_written env files ls ls) as (pd & output & fs & L & O & F & _ & D);
        [by right|].
      exists output, fs. split_and!; [congruence|done|right].
      rewrite D in Hls. by simplify_eq. }
  apply compute_output_codes in Hout.
  unfold features_or_nil at 1 in Hout. rewrite Hfs in Hout. simpl in Hout.
  assert (∃ d', d' ∈ dissolveByPostnummer fs ∧ postnummer d = postnummer d')
    as (d' & Hd' & E).
  { destruct Hin as [Hin|Hin]; [by exists d|].
    destruct (labels_codes_from _ d Hin) as (d' & Hd' & E). by exists d'. }
  apply dissolved_is_emitted in Hd' as (k & g & -> & _ & f & Hf & Hk).
  rewrite postnummer_singleton in E.
  destruct (Hout f Hf) as (f' & Hf' & E'). exists k, f'.
  split_and!; [done..|congruence].
Qed.

End Run.

(** * The theorems at work on the sample data *)

Section Examples.
Local Existing Instance Sample.turf.

Lemma output_codes_come_from_input_witness :
  ∃ k f, postnummer Sample.grownB = Some k ∧
         f ∈ features_or_nil Sample.postalData ∧ postnummer f = Some k.
Proof.
  apply (output_codes_come_from_input (Sample.env "coast" None) Sample.files
           Sample.postalData Sample.grownB).
  - vm_compute. reflexivity.
  - left. eexists. split; [vm_compute; reflexivity|].
    apply list_elem_of_In. right. left. vm_compute. reflexivity.
Defined.

Lemma labels_follow_dissolved_witness :
  codes_in_bijection
    (dissolveByPostnummer [Sample.zoneA; Sample.zoneB])
    (buildLabelPoints
       (FeatureCollection (dissolveByPostnummer [Sample.zoneA; Sample.zoneB]))).
Proof.
  apply (labels_follow_dissolved [Sample.zoneA; Sample.zoneB]).
  intros d Hd. apply list_elem_of_In in Hd. vm_compute in Hd.
  destruct Hd as [<-|[<-|[]]]; vm_compute; discriminate.
Defined.

(** C3 as stated fails: a zone whose polygon has no ring is dissolved into
    a feature of its own, its centroid computation throws, and no label
    point carries its code. *)
Lemma label_bijection_fails_on_hollow_zone :
  ¬ codes_in_bijection
      (dissolveByPostnummer [Sample.hollow])
      (buildLabelPoints (FeatureCollection (dissolveByPostnummer [Sample.hollow]))).
Proof.
  intros [_ H]. specialize (H Sample.hollow).
  assert (Sample.hollow ∈ dissolveByPostnummer [Sample.hollow]) as Hin.
  { apply list_elem_of_In. left. vm_compute. reflexivity. }
  apply H in Hin. vm_compute in Hin. discriminate.
Qed.

Lemma oversized_gap_is_dropped_witness :
  assign_gap (num 5 1) Sample.cache Sample.strip = Ok [].
Proof.
  eapply (proj1 (oversized_gap_is_dropped (num 5 1))).
  - reflexivity.
  - vm_compute. reflexivity.
Defined.

Lemma nearest_centroid_first_wins_witness :
  ∃ pushes,
    assignGapsToNearest PosInf (FeatureCollection [Sample.zoneA; Sample.twinB])
      [Sample.strip] = Ok (concat pushes) ∧
    Forall2 (λ gap pushed,
               ∃ area, turf_area gap = Ok area ∧
                 if js_gt area PosInf then pushed = []
                 else ∃ gapCenter, turf_centroid gap = Ok gapCenter ∧
                        ∃ i f, nearest_candidate gapCenter
                                 [Sample.zoneA; Sample.twinB] i f ∧
                               pushed = [mkFeature (Some (properties_or_empty f))
                                                   (geometry gap)])
            [Sample.strip] pushes.
Proof.
  apply (proj2 (nearest_centroid_first_wins PosInf
                  (FeatureCollection [Sample.zoneA; Sample.twinB])
                  [Sample.zoneA; Sample.twinB] [Sample.strip] eq_refl)).
  - intros f Hf. apply list_elem_of_In in Hf.
    destruct Hf as [<-|[<-|[]]]; eexists; vm_compute; reflexivity.
  - intros gap Hg. apply list_elem_of_In in Hg. destruct Hg as [<-|[]].
    eexists. split; [reflexivity|]. intros _.
    eexists. split; [reflexivity|].
    intros f c Hf Hc. apply list_elem_of_In in Hf.
    destruct Hf as [<-|[<-|[]]]; vm_compute in Hc; injection Hc as <-;
      eexists; vm_compute; reflexivity.
Defined.

(** Two candidates at the same distance from the gap centroid: whichever
    comes first among the candidate features gets the gap. *)
Example equidistant_candidates_first_wins :
  assignGapsToNearest PosInf (FeatureCollection [Sample.zoneA; Sample.twinB])
    [Sample.strip] =
    Ok [mkFeature (Some {[ "postnummer" := VStr "0150" ]}) (geometry Sample.strip)] ∧
  assignGapsToNearest PosInf (FeatureCollection [Sample.twinB; Sample.zoneA])
    [Sample.strip] =
    Ok [mkFeature (Some {[ "postnummer" := VStr "0151" ]}) (geometry Sample.strip)].
Proof. split; vm_compute; reflexivity. Qed.

(** The scenario of the specification: in mode [coast] with an unbounded
    maximum the strip is clipped out of nothing, found as a gap, given to
    the nearer zone, and the dissolved document has the two codes. *)
Example coast_run_dissolves_two_zones :
  (λ d, postnummer <$> features_or_nil d) <$>
    dissolved_file (run (Sample.env "coast" None) Sample.files) =
  Some [Some (VStr "0150"); Some (VStr "0151")].
Proof. vm_compute. reflexivity. Qed.

(** With a maximum of 5 the strip (area 12) is left uncovered. *)
Example bounded_run_leaves_strip :
  (λ d, length (features_or_nil d)) <$>
    clipped_file (run (Sample.env "coast" (Some "5")) Sample.files) = Some 2 ∧
  (λ d, length (features_or_nil d)) <$>
    clipped_file (run (Sample.env "coast" None) Sample.files) = Some 3.
Proof. split; vm_compute; reflexivity. Qed.

Lemma unionMask_is_left_fold_witness :
  union_or_keep (Some Sample.zoneA) Sample.zoneB =
    try_catch (Sample.union Sample.zoneA Sample.zoneB) None.
Proof.
  destruct (@unionMask_is_left_fold Sample.turf) as (_ & _ & _ & _ & Hok & _).
  apply Hok. vm_compute. reflexivity.
Defined.

Lemma mode_none_output_is_input_witness :
  compute_output (Sample.env "none" None) Sample.files Sample.postalData =
    Ok Sample.postalData ∧
  clipped_file (run (Sample.env "none" None) Sample.files) = Some Sample.postalData.
Proof.
  apply mode_none_output_is_input.
  - reflexivity.
  - vm_compute. reflexivity.
Defined.

Lemma sample_bbox_contains (f : Feature) (b : BBox) (p : Position) :
  turf_bbox f = Ok b → Sample.region f p → in_bbox b p.
Proof. intros [= <-] H. exact H. Qed.

Lemma bbox_prefilter_keeps_overlaps_witness :
  overlaps (Sample.bbox_of (Sample.feature_coords Sample.zoneA))
           (Sample.bbox_of (Sample.feature_coords Sample.landMask)) = true.
Proof.
  apply (bbox_prefilter_keeps_overlaps Sample.region sample_bbox_contains
           Sample.zoneA Sample.landMask _ _ (Sample.pt 2 2)).
  - reflexivity.
  - reflexivity.
  - repeat split; vm_compute; reflexivity.
  - repeat split; vm_compute; reflexivity.
Defined.

Lemma unparsable_gap_area_max_filters_nothing_witness :
  GAP_AREA_MAX (Sample.env "coast" (Some "abc")) = NaN.
Proof.
  eapply (proj1 (unparsable_gap_area_max_filters_nothing
                   (Sample.env "coast" (Some "abc")) "abc" _ _ _)).
  Unshelve.
  - reflexivity.
  - discriminate.
  - vm_compute. reflexivity.
Defined.

End Examples.

(** * Further properties of the pipeline *)

Section MaskUnifierMore.
Context `{T : Turf}.

Lemma unionMask_app (fs1 fs2 : list Feature) :
  unionMask (fs1 ++ fs2) = union_loop (unionMask fs1) fs2.
Proof. unfold unionMask. by rewrite !union_loop_fold, fold_left_app. Qed.

(** X1. A feature whose union with the accumulator throws leaves no trace:
    the mask is the one built from the list without it. *)
Theorem unionMask_skips_failing_feature (fs rest : list Feature) (m bad : Feature) :
  unionMask fs = Some m → turf_union m bad = Throw →
  unionMask (fs ++ bad :: rest) = unionMask (fs ++ rest).
Proof.
  intros Hm Hbad. rewrite !unionMask_app, Hm. simpl. by rewrite Hbad.
Qed.





End MaskUnifierMore.

Section ClipperMore.
Context `{T : Turf}.

(** What one iteration of the clipper pushes: nothing, or one feature with
    the properties of the input feature and a geometry. *)
Lemma clip_feature_cases landMask landBbox feature :
  clip_feature landMask landBbox feature = [] ∨
  ∃ g, is_Some (geometry feature) ∧
       clip_feature landMask landBbox feature =
         [mkFeature (Some (properties_or_empty feature)) (Some g)].
Proof.
  unfold clip_feature. destruct (geometry feature) as [g0|]; [|by left].
  destruct (turf_bbox feature) as [featureBbox|]; simpl; [|by left].
  destruct (overlaps featureBbox landBbox); simpl; [|by left].
  destruct (turf_intersect feature landMask) as [[i|]|]; simpl; [|by left..].
  destruct (geometry i) as [g|]; [|by left]. right. exists g. by split.
Qed.



Lemma clip_codes_sublist landMask landBbox (fs : list Feature) :
  (postnummer <$> flat_map (clip_feature landMask landBbox) fs)
    `sublist_of` (postnummer <$> fs).
Proof.
  induction fs as [|f fs IH]; [done|]. simpl.
  destruct (clip_feature_cases landMask landBbox f) as [->|(g & Hg & ->)]; simpl.
  - by apply sublist_cons.
  - rewrite postnummer_inherited. by apply sublist_skip.
Qed.

End ClipperMore.

Section GapBuilderMore.
Context `{T : Turf}.

Lemma map_throwing_Ok {A B} (f : A → outcome B) (l : list A) (r : list B) :
  map_throwing f l = Ok r ↔ Forall2 (λ a b, f a = Ok b) l r.
Proof.
  revert r. induction l as [|a l IH]; intros r; simpl.
  - split; [intros [= <-]; constructor|by intros ->%Forall2_nil_inv_l].
  - split.
    + destruct (f a) as [b|] eqn:Hb; [|done]. simpl.
      destruct (map_throwing f l) as [bs|]; [|done]. simpl.
      intros [= <-]. constructor; [done|]. by apply IH.
    + intros (b & bs & Hb & Hbs & ->)%Forall2_cons_inv_l.
      rewrite Hb. simpl. apply IH in Hbs. by rewrite Hbs.
Qed.

Lemma map_throwing_Throw {A B} (f : A → outcome B) (l : list A) :
  map_throwing f l = Throw ↔ ∃ a, a ∈ l ∧ f a = Throw.
Proof.
  induction l as [|a l IH]; simpl.
  - split; [done|]. by intros (a & Ha%elem_of_nil & _).
  - destruct (f a) as [b|] eqn:Hb; simpl.
    + destruct (map_throwing f l) as [bs|]; simpl.
      * split; [done|]. intros (a' & [->|Ha']%elem_of_cons & Hf); [congruence|].
        assert (Ok bs = Throw) as Habs by (apply IH; eauto). done.
      * split; [|done]. intros _. destruct (proj1 IH eq_refl) as (a' & Ha' & Hf).
        exists a'. split; [by right|done].
    + split; [|done]. intros _. exists a. split; [left|done].
Qed.

(** X4. When the difference of mask and coverage is a multi-part polygon,
    the Gap Builder returns one gap per part, in order, each being what
    [turf.polygon] makes of the part, and it throws exactly when
    [turf.polygon] throws for some part (this call is outside the
    try/catch that guards the difference). *)
Theorem buildGapFeatures_one_gap_per_part (landMask u diff : Feature)
    (polys : list (list (list Position))) :
  turf_difference landMask u = Ok (Some diff) →
  geometry diff = Some (MultiPolygon polys) →
  (∀ gaps, buildGapFeatures landMask (Some u) = Ok gaps ↔
           Forall2 (λ part gap, turf_polygon part = Ok gap) polys gaps) ∧
  (buildGapFeatures landMask (Some u) = Throw ↔
   ∃ part, part ∈ polys ∧ turf_polygon part = Throw).
Proof.
  intros Hdiff Hgeom. unfold buildGapFeatures. rewrite Hdiff, Hgeom.
  split; [intros gaps; apply map_throwing_Ok|apply map_throwing_Throw].
Qed.

End GapBuilderMore.

Section GapAssignerMore.
Context `{T : Turf}.

Lemma scan_finds_entry gapCenter cache r :
  scan gapCenter None cache = Ok r → cache ≠ [] → r ≠ None.
Proof.
  intros Hscan Hne ->.
  by pose proof (scan_preserves_inv gapCenter cache [] None None eq_refl Hscan).
Qed.

(** What the callback pushes for a gap: nothing, or one feature with the
    geometry of the gap and the properties of a candidate. *)
Lemma assign_gap_cases gapAreaMax cache gap pushed :
  assign_gap gapAreaMax cache gap = Ok pushed →
  pushed = [] ∨
  ∃ f, pushed = [mkFeature (Some (properties_or_empty f)) (geometry gap)].
Proof.
  unfold assign_gap. intros H.
  destruct (turf_area gap) as [area|]; [|done]. simpl in H.
  destruct (js_gt area gapAreaMax); [left; by simplify_eq|].
  destruct (turf_centroid gap) as [gapCenter|]; [|done]. simpl in H.
  destruct (scan gapCenter None cache) as [[b|]|]; simpl in H; simplify_eq.
  - right. by eexists.
  - by left.
Qed.

Lemma assign_gap_filled gapAreaMax cache gap pushed :
  assign_gap gapAreaMax cache gap = Ok pushed → cache ≠ [] →
  (∀ area, turf_area gap = Ok area → js_gt area gapAreaMax = false) →
  ∃ f, pushed = [mkFeature (Some (properties_or_empty f)) (geometry gap)].
Proof.
  unfold assign_gap. intros H Hne Hsmall.
  destruct (turf_area gap) as [area|]; [|done]. simpl in H.
  rewrite (Hsmall area eq_refl) in H.
  destruct (turf_centroid gap) as [gapCenter|]; [|done]. simpl in H.
  destruct (scan gapCenter None cache) as [r|] eqn:Hscan; [|done].
  simpl in H. simplify_eq.
  destruct r as [b|]; [by eexists|]. by destruct (scan_finds_entry _ _ _ Hscan Hne).
Qed.

Lemma assign_gap_mono max1 max2 cache gap p1 p2 :
  js_le max1 max2 = true →
  assign_gap max1 cache gap = Ok p1 → assign_gap max2 cache gap = Ok p2 →
  p1 = [] ∨ p1 = p2.
Proof.
  unfold assign_gap. intros Hle H1 H2.
  destruct (turf_area gap) as [area|]; [|done]. simpl in H1, H2.
  destruct (js_gt area max1) eqn:Hgt1; [left; by simplify_eq|].
  destruct (js_gt area max2) eqn:Hgt2; [|right; congruence].
  unfold js_gt in *. by rewrite (js_le_lt_trans _ _ _ Hle Hgt2) in Hgt1.
Qed.

Lemma build_cache_Throw (fs : list Feature) :
  build_cache fs = Throw ↔ ∃ f, f ∈ fs ∧ turf_centroid f = Throw.
Proof.
  unfold build_cache. rewrite map_throwing_Throw.
  split; intros (f & Hf & H); exists f; (split; [done|]).
  - by destruct (turf_centroid f).
  - by rewrite H.
Qed.

Lemma build_cache_nonempty f fs cache :
  build_cache (f :: fs) = Ok cache → cache ≠ [].
Proof.
  intros H%build_cache_features ->. done.
Qed.

(** X5. The centroids of the candidates are computed outside any
    try/catch: when there is a gap to assign, one candidate whose centroid
    computation throws makes the whole Gap Assigner throw, whatever the
    gaps and the other candidates are. *)
Theorem assignGapsToNearest_centroid_failure_is_fatal (gapAreaMax : jsnum)
    (clipped : GeoDoc) (fs gaps : list Feature) (f : Feature) :
  features clipped = Some fs → f ∈ fs → turf_centroid f = Throw → gaps ≠ [] →
  assignGapsToNearest gapAreaMax clipped gaps = Throw.
Proof.
  intros Hfs Hf Hthrow Hgaps. unfold assignGapsToNearest.
  destruct gaps as [|gap rest]; [done|]. rewrite Hfs.
  assert (build_cache fs = Throw) as -> by (apply build_cache_Throw; eauto).
  done.
Qed.

Lemma pushes_geometry_sublist gapAreaMax cache gaps pushes :
  Forall2 (λ gap pushed, assign_gap gapAreaMax cache gap = Ok pushed) gaps pushes →
  (geometry <$> concat pushes) `sublist_of` (geometry <$> gaps).
Proof.
  induction 1 as [|gap pushed gaps pushes Hgap _ IH]; [done|]. simpl.
  destruct (assign_gap_cases _ _ _ _ Hgap) as [->|[f ->]]; simpl.
  - by apply sublist_cons.
  - by apply sublist_skip.
Qed.

(** X6. The additions follow the order of the gaps and there is at most
    one per gap: their geometries are a subsequence of the geometries of
    the gaps. *)
Theorem assignGapsToNearest_keeps_gap_order (gapAreaMax : jsnum) (clipped : GeoDoc)
    (gaps additions : list Feature) :
  assignGapsToNearest gapAreaMax clipped gaps = Ok additions →
  (geometry <$> additions) `sublist_of` (geometry <$> gaps) ∧
  (length additions ≤ length gaps)%nat.
Proof.
  intros H.
  assert ((geometry <$> additions) `sublist_of` (geometry <$> gaps)) as Hsub.
  { apply assignGapsToNearest_spec in H as [[-> ->]|(fs & cache & _ & _ & H)];
      [done|].
    apply forEach_gap_spec in H as (pushes & Hall & ->).
    by eapply pushes_geometry_sublist. }
  split; [done|]. apply sublist_length in Hsub. by rewrite !length_fmap in Hsub.
Qed.

Lemma pushes_geometry_all gapAreaMax cache gaps pushes :
  cache ≠ [] →
  (∀ gap area, gap ∈ gaps → turf_area gap = Ok area → js_gt area gapAreaMax = false) →
  Forall2 (λ gap pushed, assign_gap gapAreaMax cache gap = Ok pushed) gaps pushes →
  geometry <$> concat pushes = geometry <$> gaps.
Proof.
  intros Hne Hsmall. induction 1 as [|gap pushed gaps pushes Hgap _ IH]; [done|].
  destruct (assign_gap_filled _ _ _ _ Hgap Hne) as [f ->].
  { intros area. apply Hsmall. left. }
  simpl. f_equal. apply IH. intros g area Hg. apply Hsmall. by right.
Qed.

(** X7. When the Gap Assigner returns, there is at least one candidate and
    no gap is over the maximum, every gap is filled: the additions carry
    exactly the geometries of the gaps, in order. *)
Theorem assignGapsToNearest_fills_every_gap (gapAreaMax : jsnum) (clipped : GeoDoc)
    (f : Feature) (fs gaps additions : list Feature) :
  assignGapsToNearest gapAreaMax clipped gaps = Ok additions →
  features clipped = Some (f :: fs) →
  (∀ gap area, gap ∈ gaps → turf_area gap = Ok area → js_gt area gapAreaMax = false) →
  geometry <$> additions = geometry <$> gaps.
Proof.
  intros H Hfs Hsmall.
  apply assignGapsToNearest_spec in H as [[-> ->]|(fs' & cache & Hfs' & Hcache & H)];
    [done|].
  rewrite Hfs in Hfs'. simplify_eq.
  apply forEach_gap_spec in H as (pushes & Hall & ->).
  eapply pushes_geometry_all; [|done..]. by eapply build_cache_nonempty.
Qed.

Lemma pushes_mono max1 max2 cache gaps pushes1 pushes2 :
  js_le max1 max2 = true →
  Forall2 (λ gap pushed, assign_gap max1 cache gap = Ok pushed) gaps pushes1 →
  Forall2 (λ gap pushed, assign_gap max2 cache gap = Ok pushed) gaps pushes2 →
  concat pushes1 `sublist_of` concat pushes2.
Proof.
  intros Hle H1. revert pushes2.
  induction H1 as [|gap p1 gaps pushes1 Hgap1 _ IH]; intros pushes2 H2.
  - apply sublist_nil_l.
  - apply Forall2_cons_inv_l in H2 as (p2 & pushes2' & Hgap2 & H2 & ->).
    simpl. destruct (assign_gap_mono _ _ _ _ _ _ Hle Hgap1 Hgap2) as [->| ->].
    + simpl. apply sublist_inserts_l. by apply IH.
    + apply sublist_app; [done|]. by apply IH.
Qed.

(** X8. Raising the maximum gap area never takes an addition away: when
    the Gap Assigner returns for both maxima, what it returns for the
    smaller one is a subsequence of what it returns for the larger one. *)
Theorem assignGapsToNearest_monotone_in_maximum (max1 max2 : jsnum) (clipped : GeoDoc)
    (gaps additions1 additions2 : list Feature) :
  js_le max1 max2 = true →
  assignGapsToNearest max1 clipped gaps = Ok additions1 →
  assignGapsToNearest max2 clipped gaps = Ok additions2 →
  additions1 `sublist_of` additions2.
Proof.
  intros Hle H1 H2.
  apply assignGapsToNearest_spec in H1 as [[-> ->]|(fs1 & cache1 & Hfs1 & Hc1 & H1)];
    [apply sublist_nil_l|].
  apply assignGapsToNearest_spec in H2 as [[-> ->]|(fs2 & cache2 & Hfs2 & Hc2 & H2)].
  { simpl in H1. simplify_eq. done. }
  rewrite Hfs1 in Hfs2. simplify_eq. rewrite Hc1 in Hc2. simplify_eq.
  apply forEach_gap_spec in H1 as (pushes1 & Hall1 & ->).
  apply forEach_gap_spec in H2 as (pushes2 & Hall2 & ->).
  by eapply pushes_mono.
Qed.

End GapAssignerMore.

Section DissolverMore.
Context `{T : Turf}.

(** ** First occurrences *)

Lemma elem_of_first_seen (k : jsval) (ks : list jsval) :
  k ∈ first_seen ks ↔ k ∈ ks.
Proof.
  induction ks as [|k0 ks IH]; [done|]. simpl.
  rewrite !elem_of_cons, list_elem_of_filter, IH.
  destruct (decide (k = k0)) as [->|Hne]; split.
  - by left.
  - by left.
  - intros [?|[_ ?]]; [done|by right].
  - intros [?|?]; [done|]. by right.
Qed.

Lemma NoDup_first_seen (ks : list jsval) : NoDup (first_seen ks).
Proof.
  induction ks as [|k0 ks IH]; [constructor|]. simpl. constructor.
  - rewrite list_elem_of_filter. by intros [? _].
  - by apply NoDup_filter.
Qed.

Lemma first_seen_snoc (ks : list jsval) (k : jsval) :
  first_seen (ks ++ [k]) =
    if decide (k ∈ ks) then first_seen ks else first_seen ks ++ [k].
Proof.
  induction ks as [|k0 ks IH]; [done|]. simpl. rewrite IH.
  destruct (decide (k ∈ ks)) as [Hin|Hin].
  - rewrite decide_True; [done|by right].
  - rewrite filter_app. destruct (decide (k = k0)) as [->|Hne].
    + rewrite decide_True by left. rewrite filter_cons_False by (by intros ?).
      by rewrite filter_nil, app_nil_r.
    + rewrite decide_False by (intros [?|?]%elem_of_cons; done).
      by rewrite filter_cons_True.
Qed.

(** ** The groups of the Dissolver *)

Lemma truthy_code_Some (f : Feature) (k : jsval) :
  truthy_code f = Some k ↔ postnummer f = Some k ∧ truthy k = true.
Proof.
  unfold truthy_code. destruct (postnummer f) as [k'|]; [|split; [done|by intros [? _]]].
  destruct (truthy k') eqn:E; split.
  - by intros [= ->].
  - by intros [[= ->] _].
  - done.
  - intros [[= ->] Ht]. congruence.
Qed.

Lemma group_step_coded grouped f k :
  truthy_code f = Some k → group_step grouped f = group_push k f grouped.
Proof.
  intros [Hk Ht]%truthy_code_Some. unfold group_step. by rewrite Hk, Ht.
Qed.

Lemma group_step_uncoded grouped f :
  truthy_code f = None → group_step grouped f = grouped.
Proof.
  unfold truthy_code, group_step. destruct (postnummer f) as [k|]; [|done].
  by destruct (truthy k).
Qed.

Lemma with_code_snoc (k : jsval) (fs : list Feature) (f : Feature) :
  with_code k (fs ++ [f]) =
    with_code k fs ++ (if decide (postnummer f = Some k) then [f] else []).
Proof.
  unfold with_code. by rewrite filter_app.
Qed.

Lemma with_code_absent (k : jsval) (fs : list Feature) :
  truthy k = true → k ∉ omap truthy_code fs → with_code k fs = [].
Proof.
  intros Ht Hk. unfold with_code. induction fs as [|f fs IH]; [done|].
  destruct (decide (postnummer f = Some k)) as [E|E].
  - destruct Hk. apply list_elem_of_omap. exists f. split; [left|].
    by apply truthy_code_Some.
  - rewrite filter_cons_False by done. apply IH. intros Hin. apply Hk.
    apply list_elem_of_omap in Hin as (f' & Hf' & E').
    apply list_elem_of_omap. exists f'. split; [by right|done].
Qed.

Lemma group_push_present k f (g : jsval → list Feature) (ks : list jsval) :
  NoDup ks → k ∈ ks →
  group_push k f ((λ k', (k', g k')) <$> ks) =
    (λ k', (k', g k' ++ (if decide (k = k') then [f] else []))) <$> ks.
Proof.
  induction ks as [|k0 ks IH]; intros Hnodup Hin; [by apply elem_of_nil in Hin|].
  apply NoDup_cons in Hnodup as [Hfresh Hnodup]. rewrite !fmap_cons. simpl.
  destruct (decide (k = k0)) as [->|Hne].
  - f_equal. apply list_fmap_ext. intros i k' Hk'.
    rewrite decide_False; [by rewrite app_nil_r|].
    intros ->. apply Hfresh. by eapply list_elem_of_lookup_2.
  - rewrite app_nil_r. f_equal. apply IH; [done|].
    by apply elem_of_cons in Hin as [|].
Qed.

Lemma first_seen_codes_truthy (fs : list Feature) (k : jsval) :
  k ∈ first_seen (omap truthy_code fs) →
  truthy k = true ∧ ∃ f, f ∈ fs ∧ postnummer f = Some k.
Proof.
  rewrite elem_of_first_seen, list_elem_of_omap.
  intros (f & Hf & [Hk Ht]%truthy_code_Some). eauto.
Qed.

Lemma keys_of_groups (g : jsval → list Feature) (ks : list jsval) :
  ((λ k, (k, g k)) <$> ks).*1 = ks.
Proof. induction ks as [|k ks IH]; [done|]. rewrite !fmap_cons. simpl. by rewrite IH. Qed.

Lemma group_by_postnummer_groups (fs : list Feature) :
  group_by_postnummer fs =
    (λ k, (k, with_code k fs)) <$> first_seen (omap truthy_code fs).
Proof.
  induction fs as [|f fs IH] using rev_ind; [done|].
  rewrite group_by_postnummer_snoc, IH, omap_app. simpl.
  destruct (truthy_code f) as [k|] eqn:Hcode; simpl.
  - rewrite (group_step_coded _ _ _ Hcode), first_seen_snoc.
    apply truthy_code_Some in Hcode as [Hk Ht].
    destruct (decide (k ∈ omap truthy_code fs)) as [Hin|Hin].
    + rewrite group_push_present;
        [|apply NoDup_first_seen|by apply elem_of_first_seen].
      apply list_fmap_ext. intros i k' _. rewrite with_code_snoc. rewrite Hk.
      do 2 f_equal. destruct (decide (k = k')) as [->|Hne].
      * by rewrite decide_True.
      * rewrite decide_False; [done|congruence].
    + rewrite group_push_fresh.
      * rewrite fmap_app. f_equal.
        -- apply list_fmap_ext. intros i k' Hk'. rewrite with_code_snoc, Hk.
           rewrite decide_False; [by rewrite app_nil_r|].
           intros [= ->]. apply Hin, elem_of_first_seen.
           by eapply list_elem_of_lookup_2.
        -- simpl. rewrite with_code_snoc, Hk, decide_True by done.
           by rewrite with_code_absent.
      * by rewrite keys_of_groups, elem_of_first_seen.
  - rewrite (group_step_uncoded _ _ Hcode), app_nil_r.
    apply list_fmap_ext. intros i k' Hk'. rewrite with_code_snoc.
    rewrite decide_False; [by rewrite app_nil_r|].
    intros E. apply list_elem_of_lookup_2, first_seen_codes_truthy in Hk' as [Ht _].
    assert (truthy_code f = Some k') by by apply truthy_code_Some. congruence.
Qed.

(** X9. The groups of the Dissolver: the keys are the distinct truthy codes
    of the input in the order in which they are first seen, and the group
    of a code is made of exactly the input features with that code, in
    input order. *)
Theorem dissolve_groups_by_code (fs : list Feature) :
  group_by_postnummer fs =
    (λ k, (k, with_code k fs)) <$> first_seen (omap truthy_code fs) ∧
  dissolveByPostnummer fs =
    flat_map (λ k, dissolve_group (k, with_code k fs))
             (first_seen (omap truthy_code fs)).
Proof.
  split; [apply group_by_postnummer_groups|].
  unfold dissolveByPostnummer. rewrite group_by_postnummer_groups.
  induction (first_seen (omap truthy_code fs)) as [|k ks IH]; [done|].
  rewrite fmap_cons. simpl. by rewrite IH.
Qed.

Lemma group_by_postnummer_filter (fs : list Feature)
    (grouped : list (jsval * list Feature)) :
  fold_left group_step fs grouped =
    fold_left group_step (filter (λ f, is_Some (truthy_code f)) fs) grouped.
Proof.
  revert grouped. induction fs as [|f fs IH]; intros grouped; [done|].
  destruct (truthy_code f) as [k|] eqn:Hcode.
  - rewrite filter_cons_True by (by rewrite Hcode). simpl. apply IH.
  - rewrite filter_cons_False by (rewrite Hcode; by intros [? ?]).
    simpl. rewrite (group_step_uncoded _ _ Hcode). apply IH.
Qed.

(** X10. Features without a code, or with a falsy one (null, the empty
    string, 0, NaN, false), play no part in the dissolution: the result is
    the one for the input without them. *)
Theorem dissolve_ignores_uncoded (fs : list Feature) :
  dissolveByPostnummer fs =
    dissolveByPostnummer (filter (λ f, is_Some (truthy_code f)) fs).
Proof.
  unfold dissolveByPostnummer, group_by_postnummer.
  by rewrite group_by_postnummer_filter.
Qed.

(** X11. What the Dissolver emits: every feature has a geometry and a
    properties object holding the code and nothing else, the code is
    truthy, no two features have the same code, and the codes come in the
    order in which the input first shows them. *)
Theorem dissolved_features_shape (fs : list Feature) :
  (∀ d, d ∈ dissolveByPostnummer fs →
        ∃ k g, d = mkFeature (Some {[ "postnummer" := k ]}) (Some g) ∧
               truthy k = true) ∧
  NoDup (postnummer <$> dissolveByPostnummer fs) ∧
  (postnummer <$> dissolveByPostnummer fs)
    `sublist_of` (Some <$> first_seen (omap truthy_code fs)).
Proof.
  split_and!.
  - intros d (k & g & -> & Ht & _)%dissolved_is_emitted. eauto.
  - apply dissolved_codes_NoDup.
  - unfold dissolveByPostnummer.
    replace (first_seen (omap truthy_code fs)) with (group_by_postnummer fs).*1.
    + apply dissolved_sublist.
    + by rewrite group_by_postnummer_groups, keys_of_groups.
Qed.

Lemma union_loop_geometry (m : Feature) (fs : list Feature) :
  (∀ a b u, (a, b) ∈ union_calls (Some m) fs → turf_union a b = Ok u →
            ∃ r, u = Some r ∧ is_Some (geometry r)) →
  is_Some (geometry m) →
  ∃ r, union_loop (Some m) fs = Some r ∧ is_Some (geometry r).
Proof.
  revert m. induction fs as [|f fs IH]; intros m Hu Hm; [by exists m|].
  simpl in *. destruct (turf_union m f) as [u|] eqn:E; simpl in *.
  - destruct (Hu m f u) as (r & -> & Hr); [left|done|].
    apply IH; [|done]. intros a b u' Hin. apply Hu. by right.
  - apply IH; [|done]. intros a b u' Hin. apply Hu. by right.
Qed.

Lemma dissolve_group_emits (k : jsval) (f : Feature) (group : list Feature) :
  (∀ a b u, (a, b) ∈ union_calls None (f :: group) → turf_union a b = Ok u →
            ∃ r, u = Some r ∧ is_Some (geometry r)) →
  is_Some (geometry f) →
  ∃ g, dissolve_group (k, f :: group) =
         [mkFeature (Some {[ "postnummer" := k ]}) (Some g)].
Proof.
  intros Hu Hf. unfold dissolve_group. simpl.
  destruct (union_loop_geometry f group Hu Hf) as (r & -> & [g Hg]).
  rewrite Hg. by exists g.
Qed.

Lemma with_code_present (k : jsval) (fs : list Feature) :
  k ∈ first_seen (omap truthy_code fs) →
  ∃ f group, with_code k fs = f :: group ∧ f ∈ fs ∧ truthy_code f = Some k.
Proof.
  intros (Ht & f & Hf & Hk)%first_seen_codes_truthy.
  assert (f ∈ with_code k fs) as Hin by (by apply list_elem_of_filter).
  destruct (with_code k fs) as [|f0 group] eqn:E; [by apply elem_of_nil in Hin|].
  assert (f0 ∈ with_code k fs) as [Hk0 Hf0]%list_elem_of_filter by (rewrite E; left).
  exists f0, group. split_and!; [done..|]. by apply truthy_code_Some.
Qed.

Lemma dissolve_by_groups (fs : list Feature) :
  dissolveByPostnummer fs =
    flat_map (λ k, dissolve_group (k, with_code k fs))
             (first_seen (omap truthy_code fs)).
Proof.
  unfold dissolveByPostnummer. rewrite group_by_postnummer_groups.
  generalize (first_seen (omap truthy_code fs)). intros ks.
  induction ks as [|k ks IH]; [done|]. rewrite fmap_cons. simpl. by rewrite IH.
Qed.

Lemma codes_of_groups (g : jsval → list Feature) (ks : list jsval) :
  (∀ k, k ∈ ks → postnummer <$> dissolve_group (k, g k) = [Some k]) →
  postnummer <$> flat_map (λ k, dissolve_group (k, g k)) ks = Some <$> ks.
Proof.
  induction ks as [|k ks IH]; intros Hk; [done|].
  simpl. rewrite fmap_app, Hk by left. simpl. f_equal.
  apply IH. intros k' Hk'. apply Hk. by right.
Qed.

(** X12. When every union that the Dissolver calls on its groups and that
    returns yields a feature with a geometry, and every input feature with
    a truthy code has a geometry, the Dissolver emits exactly one feature
    per distinct truthy code of the input, in first-seen order; unions
    that throw do not matter. *)
Theorem dissolve_one_feature_per_code (fs : list Feature) :
  (∀ k a b u, k ∈ first_seen (omap truthy_code fs) →
     (a, b) ∈ union_calls None (with_code k fs) → turf_union a b = Ok u →
     ∃ r, u = Some r ∧ is_Some (geometry r)) →
  (∀ f, f ∈ fs → is_Some (truthy_code f) → is_Some (geometry f)) →
  postnummer <$> dissolveByPostnummer fs =
    Some <$> first_seen (omap truthy_code fs).
Proof.
  intros Hu Hgeo. rewrite dissolve_by_groups. apply codes_of_groups.
  intros k Hk. destruct (with_code_present k fs Hk) as (f & group & E & Hf & Hcode).
  specialize (Hu k). rewrite E in Hu. rewrite E.
  destruct (dissolve_group_emits k f group) as [g ->].
  - intros a b u. by apply Hu.
  - apply Hgeo; [done|]. by rewrite Hcode.
  - simpl. by rewrite postnummer_singleton.
Qed.

Lemma dissolve_solo_general (l : list Feature) :
  (∀ f, f ∈ l → is_Some (truthy_code f) ∧ is_Some (geometry f)) →
  flat_map dissolve_group (solo <$> l) = code_and_geometry <$> l.
Proof.
  induction l as [|f l IH]; intros Hl; [done|].
  rewrite !fmap_cons. simpl. rewrite IH by (intros; apply Hl; by right).
  destruct (Hl f) as [[k Hk] [g Hg]]; [left|].
  apply truthy_code_Some in Hk as [Hk _].
  unfold solo, dissolve_group, code_and_geometry. simpl. by rewrite Hg, Hk.
Qed.

(** X13. On features that all have a geometry and pairwise distinct truthy
    codes, the Dissolver attempts no union: it returns the features in
    input order, each reduced to its code and its geometry. *)
Theorem dissolve_distinct_codes (l : list Feature) :
  (∀ f, f ∈ l → is_Some (truthy_code f) ∧ is_Some (geometry f)) →
  NoDup (postnummer <$> l) →
  dissolveByPostnummer l = code_and_geometry <$> l.
Proof.
  intros Hl Hnodup. unfold dissolveByPostnummer.
  rewrite group_by_postnummer_solo; [by apply dissolve_solo_general| |done].
  intros f Hf. destruct (Hl f Hf) as [[k Hk] _].
  apply truthy_code_Some in Hk. by exists k.
Qed.

End DissolverMore.

Section LabelsMore.
Context `{T : Turf}.

Lemma label_codes_sublist (fs : list Feature) :
  (postnummer <$> flat_map label_feature fs) `sublist_of` (postnummer <$> fs).
Proof.
  induction fs as [|f fs IH]; [done|]. simpl.
  pose proof (label_feature_cases f) as H.
  destruct (turf_centroid f); rewrite H; simpl.
  - rewrite postnummer_object_code. by apply sublist_skip.
  - by apply sublist_cons.
Qed.

Lemma label_codes_all (fs : list Feature) :
  (∀ f, f ∈ fs → turf_centroid f ≠ Throw) →
  postnummer <$> flat_map label_feature fs = postnummer <$> fs.
Proof.
  induction fs as [|f fs IH]; intros Hok; [done|]. simpl.
  pose proof (label_feature_cases f) as H.
  destruct (turf_centroid f) eqn:E; rewrite H; simpl.
  - rewrite postnummer_object_code. f_equal. apply IH. intros; apply Hok; by right.
  - destruct (Hok f); [left|done].
Qed.

(** X14. The Label Builder, on any document: the label points follow the
    order of the features and there is at most one per feature; each is
    the centroid of a feature, with a properties object that holds the
    code of that feature and nothing else; when no centroid computation
    throws there is one label per feature, code by code. *)
Theorem buildLabelPoints_keeps_order (dissolved : GeoDoc) :
  (postnummer <$> buildLabelPoints dissolved)
    `sublist_of` (postnummer <$> features_or_nil dissolved) ∧
  (∀ l, l ∈ buildLabelPoints dissolved →
        ∃ f c, f ∈ features_or_nil dissolved ∧ turf_centroid f = Ok c ∧
               l = mkFeature (Some (postnummer_object (postnummer f))) (geometry c)) ∧
  ((∀ f, f ∈ features_or_nil dissolved → turf_centroid f ≠ Throw) →
   postnummer <$> buildLabelPoints dissolved =
     postnummer <$> features_or_nil dissolved).
Proof.
  split_and!.
  - apply label_codes_sublist.
  - intros l (f & Hf & Hl)%elem_of_flat_map.
    pose proof (label_feature_cases f) as H.
    destruct (turf_centroid f) as [c|] eqn:E; rewrite H in Hl.
    + apply list_elem_of_singleton in Hl. by exists f, c.
    + by apply elem_of_nil in Hl.
  - apply label_codes_all.
Qed.

End LabelsMore.

Section RunMore.
Context `{T : Turf}.

Lemma loadGeoJSON_untruthy (files : Files) (p : option string) :
  str_truthy p = false → loadGeoJSON files p = Throw.
Proof.
  unfold str_truthy, loadGeoJSON. destruct p as [s|]; [|done].
  by destruct (String.eqb s "").
Qed.

Lemma compute_output_collection env files postalData output :
  String.eqb (CLIP_MODE env) "none" = false →
  compute_output env files postalData = Ok output →
  ∃ fs, output = FeatureCollection fs.
Proof.
  unfold compute_output. intros ->.
  destruct (String.eqb (CLIP_MODE env) "gapfill-border").
  - destruct (negb _); [done|].
    destruct (loadGeoJSON files _) as [maskData|]; [|done]. simpl.
    destruct (unionMask (normalizeMask maskData)) as [borderMask|]; [|done].
    destruct (buildGapFeatures _ _) as [gaps|]; [|done]. simpl.
    destruct (assignGapsToNearest _ _ gaps) as [additions|]; [|done].
    simpl. intros [= <-]. by eexists.
  - destruct (loadGeoJSON files _) as [maskData|]; [|done]. simpl.
    destruct (unionMask (normalizeMask maskData)) as [landMask|]; [|done].
    destruct (clipPostalCodes postalData landMask) as [clipped|]; [|done].
    simpl. destruct (String.eqb (CLIP_MODE env) "coast");
      [|intros [= <-]; by eexists].
    destruct (buildGapFeatures _ _) as [gaps|]; [|done]. simpl.
    destruct (assignGapsToNearest _ _ gaps) as [additions|]; [|done].
    simpl. intros [= <-]. by eexists.
Qed.

(** The three ways a run can end. *)
Lemma run_cases (env : Env) (files : Files) :
  run env files = nothing_written ∨
  (∃ output, features output = None ∧
             String.eqb (CLIP_MODE env) "none" = true ∧
             loadGeoJSON files (Some POSTAL_PATH) = Ok output ∧
             run env files = mkWritten (Some output) None None 1) ∨
  (∃ postalData output fs,
     loadGeoJSON files (Some POSTAL_PATH) = Ok postalData ∧
     compute_output env files postalData = Ok output ∧
     features output = Some fs ∧
     run env files =
       mkWritten (Some output)
         (Some (FeatureCollection (dissolveByPostnummer fs)))
         (Some (FeatureCollection
                  (buildLabelPoints (FeatureCollection (dissolveByPostnummer fs)))))
         0).
Proof.
  unfold run. destruct (_ && _); [by left|].
  destruct (loadGeoJSON files (Some POSTAL_PATH)) as [postalData|] eqn:Hload;
    [|by left].
  simpl. destruct (compute_output env files postalData) as [output|] eqn:Hout;
    [|by left].
  destruct (features output) as [fs|] eqn:Hfs.
  - right. right. by exists postalData, output, fs.
  - right. left. exists output.
    destruct (String.eqb (CLIP_MODE env) "none") eqn:Hmode.
    + unfold compute_output in Hout. rewrite Hmode in Hout. by simplify_eq.
    + destruct (compute_output_collection _ _ _ _ Hmode Hout) as [fs ->]. done.
Qed.

(** X15. How a run ends.  The exit status is 0 or 1, and 0 exactly when
    the label document was written; the label document is written exactly
    when the dissolved document is, and never without the first
    document. *)
Theorem run_writes_in_order (env : Env) (files : Files) :
  (exit_status (run env files) = 0 ∨ exit_status (run env files) = 1) ∧
  (exit_status (run env files) = 0 ↔ is_Some (labels_file (run env files))) ∧
  (is_Some (labels_file (run env files)) ↔
   is_Some (dissolved_file (run env files))) ∧
  (is_Some (dissolved_file (run env files)) →
   is_Some (clipped_file (run env files))).
Proof.
  destruct (run_cases env files)
    as [->|[(o & _ & _ & _ & ->)|(pd & o & fs & _ & _ & _ & ->)]]; simpl.
  - split_and!; [by right|split; [done|by intros [? ?]]
                |split; by intros [? ?]|by intros [? ?]].
  - split_and!; [by right|split; [done|by intros [? ?]]
                |split; by intros [? ?]|by intros [? ?]].
  - split_and!; [by left|split; [by eexists|done]
                |split; by eexists|by eexists].
Qed.

(** X16. Whatever the mode, the second and third documents are derived
    from the first one: the dissolved document is the Dissolver applied to
    the features of the first document, and the label document is the
    Label Builder applied to the dissolved document. *)
Theorem run_dissolves_what_it_wrote (env : Env) (files : Files) (dissolved : GeoDoc) :
  dissolved_file (run env files) = Some dissolved →
  ∃ output fs,
    clipped_file (run env files) = Some output ∧
    features output = Some fs ∧
    dissolved = FeatureCollection (dissolveByPostnummer fs) ∧
    labels_file (run env files) =
      Some (FeatureCollection (buildLabelPoints dissolved)).
Proof.
  destruct (run_cases env files)
    as [->|[(o & _ & _ & _ & ->)|(pd & o & fs & _ & _ & Hfs & ->)]]; simpl;
    [done..|].
  intros [= <-]. by exists o, fs.
Qed.

(** X17. In every mode other than [none] a run is all or nothing: either
    no file is written and the exit status is 1, or the three documents
    are written and the exit status is 0. *)
Theorem run_all_or_nothing (env : Env) (files : Files) :
  CLIP_MODE env ≠ "none" →
  run env files = nothing_written ∨
  ∃ output dissolved labels,
    run env files = mkWritten (Some output) (Some dissolved) (Some labels) 0.
Proof.
  intros Hmode%String.eqb_neq.
  destruct (run_cases env files)
    as [->|[(o & _ & E & _ & _)|(pd & o & fs & _ & _ & _ & ->)]].
  - by left.
  - congruence.
  - right. by eexists _, _, _.
Qed.

(** X18. In mode [none] the first document is written before it is looked
    at: when the postal file parses but is not a feature collection, it is
    written out as it is, the run then fails on [output.features.length],
    and neither the dissolved nor the label document is written. *)
Theorem mode_none_without_features (env : Env) (files : Files) (postalData : GeoDoc) :
  CLIP_MODE_var env = Some "none" →
  loadGeoJSON files (Some POSTAL_PATH) = Ok postalData →
  features postalData = None →
  run env files = mkWritten (Some postalData) None None 1.
Proof.
  intros Hmode Hload Hfs.
  assert (CLIP_MODE env = "none") as Hm by (unfold CLIP_MODE; by rewrite Hmode).
  unfold run. rewrite Hm, Hload. simpl. unfold compute_output. rewrite Hm. simpl.
  by rewrite Hfs.
Qed.

Lemma run_without_norway_mask (env : Env) (files : Files) :
  named_mode (CLIP_MODE env) = false →
  str_truthy (NORWAY_MASK_PATH env) = false →
  run env files = nothing_written.
Proof.
  unfold named_mode. intros Hmode Hmask.
  apply orb_false_iff in Hmode as [Hmode Hborder].
  apply orb_false_iff in Hmode as [Hnone Hgapfill].
  unfold run. destruct (_ && _); [done|].
  destruct (loadGeoJSON files (Some POSTAL_PATH)) as [postalData|]; [|done].
  simpl. unfold compute_output. rewrite Hnone, Hgapfill, Hborder.
  unfold MASK_PATH. by rewrite (loadGeoJSON_untruthy files _ Hmask).
Qed.

(** X19. The modes [coast] (also the default) and every mode the script
    does not name read the mask from NORWAY_MASK_PATH only: when that
    variable is unset or empty, no file is written and the exit status is
    1, also when BORDER_MASK_PATH is set and lets the start-up check
    pass. *)
Theorem coast_needs_norway_mask_path (env : Env) (files : Files) :
  named_mode (CLIP_MODE env) = false →
  str_truthy (NORWAY_MASK_PATH env) = false →
  run env files = nothing_written.
Proof. apply run_without_norway_mask. Qed.

(** X20. An unset or empty BORDER_MASK_PATH stands for NORWAY_MASK_PATH:
    the run is the one with BORDER_MASK_PATH set to the value of
    NORWAY_MASK_PATH, in every mode. *)
Theorem border_mask_path_defaults_to_norway (env : Env) (files : Files) :
  str_truthy (BORDER_MASK_PATH_var env) = false →
  run env files =
    run (mkEnv (NORWAY_MASK_PATH env) (NORWAY_MASK_PATH env)
               (CLIP_MODE_var env) (GAP_AREA_MAX_var env)) files.
Proof.
  intros Hborder. destruct env as [mask border mode gapmax]. simpl in Hborder.
  assert (str_or border mask = mask) as Hor
    by (unfold str_or; by rewrite Hborder).
  assert (str_or mask mask = mask) as Hself
    by (unfold str_or; by destruct (str_truthy mask)).
  cbn [NORWAY_MASK_PATH BORDER_MASK_PATH_var CLIP_MODE_var GAP_AREA_MAX_var].
  unfold run, compute_output, MASK_PATH, BORDER_MASK_PATH.
  cbn [NORWAY_MASK_PATH BORDER_MASK_PATH_var].
  rewrite Hor, Hself, Hborder.
  change (CLIP_MODE (mkEnv mask mask mode gapmax))
    with (CLIP_MODE (mkEnv mask border mode gapmax)).
  change (GAP_AREA_MAX (mkEnv mask mask mode gapmax))
    with (GAP_AREA_MAX (mkEnv mask border mode gapmax)).
  destruct (str_truthy mask);
    by destruct (String.eqb (CLIP_MODE (mkEnv mask border mode gapmax)) "none").
Qed.

End RunMore.

Section ModesMore.
Context `{T : Turf}.

Lemma assignGapsToNearest_properties gapAreaMax clipped gaps additions a :
  assignGapsToNearest gapAreaMax clipped gaps = Ok additions → a ∈ additions →
  ∃ f, f ∈ features_or_nil clipped ∧ properties a = Some (properties_or_empty f).
Proof.
  intros [[_ ->]|(fs & cache & Hfs & Hcache & H)]%assignGapsToNearest_spec;
    [by intros ?%elem_of_nil|].
  apply forEach_gap_spec in H as (pushes & Hall & ->). simpl.
  intros (pushed & Ha & Hpushed)%elem_of_concat.
  apply list_elem_of_lookup in Hpushed as [i Hi].
  destruct (Forall2_lookup_r _ _ _ _ _ Hall Hi) as (gap & _ & Hgap).
  apply assign_gap_pushed in Hgap as (area & _ & Hcase).
  destruct (js_gt area gapAreaMax); [subst; by apply elem_of_nil in Ha|].
  destruct (Hcase a Ha) as (_ & e & He & Hprops).
  exists (entry_feature e). split; [|done].
  unfold features_or_nil. rewrite Hfs. simpl.
  rewrite <- (build_cache_features _ _ Hcache). by apply list_elem_of_fmap_2.
Qed.

(** X21. In mode [gapfill-border] no input feature is dropped, altered or
    moved: the features of the first document are the input features, in
    input order, followed by the additions, and each addition has the
    properties of an input feature. *)
Theorem gapfill_border_keeps_input (env : Env) (files : Files)
    (postalData output : GeoDoc) :
  CLIP_MODE env = "gapfill-border" →
  compute_output env files postalData = Ok output →
  ∃ additions,
    output = FeatureCollection (features_or_nil postalData ++ additions) ∧
    ∀ a, a ∈ additions →
         ∃ f, f ∈ features_or_nil postalData ∧
              properties a = Some (properties_or_empty f).
Proof.
  unfold compute_output. intros ->. simpl.
  destruct (negb _); [done|].
  destruct (loadGeoJSON files _) as [maskData|]; [|done]. simpl.
  destruct (unionMask (normalizeMask maskData)) as [borderMask|]; [|done].
  destruct (buildGapFeatures _ _) as [gaps|]; [|done]. simpl.
  destruct (assignGapsToNearest _ _ gaps) as [additions|] eqn:Hadd; [|done].
  simpl. intros [= <-]. exists additions. split; [done|].
  intros a Ha. by eapply assignGapsToNearest_properties.
Qed.

(** X22. In mode [border], and in every mode the script does not name
    other than [coast], the first document holds the clipped features and
    nothing else: its codes are a subsequence of the input codes, so there
    are no more features than in the input and no gap is filled. *)
Theorem border_mode_only_clips (env : Env) (files : Files)
    (postalData output : GeoDoc) :
  CLIP_MODE env ≠ "none" → CLIP_MODE env ≠ "gapfill-border" →
  CLIP_MODE env ≠ "coast" →
  compute_output env files postalData = Ok output →
  ∃ clipped,
    output = FeatureCollection clipped ∧
    (postnummer <$> clipped) `sublist_of` (postnummer <$> features_or_nil postalData) ∧
    (length clipped ≤ length (features_or_nil postalData))%nat.
Proof.
  intros Hnone%String.eqb_neq Hgapfill%String.eqb_neq Hcoast%String.eqb_neq.
  unfold compute_output. rewrite Hnone, Hgapfill, Hcoast.
  destruct (loadGeoJSON files _) as [maskData|]; [|done]. simpl.
  destruct (unionMask (normalizeMask maskData)) as [landMask|]; [|done].
  unfold clipPostalCodes. destruct (turf_bbox landMask) as [landBbox|]; [|done].
  simpl. intros [= <-]. eexists. split; [done|].
  pose proof (clip_codes_sublist landMask landBbox (features_or_nil postalData)) as Hsub.
  split; [done|]. apply sublist_length in Hsub. by rewrite !length_fmap in Hsub.
Qed.

Lemma loadGeoJSON_truthy (files : Files) (p : option string) (d : GeoDoc) :
  loadGeoJSON files p = Ok d → str_truthy p = true.
Proof.
  unfold str_truthy, loadGeoJSON. destruct p as [s|]; [|done].
  by destruct (String.eqb s "").
Qed.

Lemma outcome_bind_Ok {A B} (a : A) (k : A → outcome B) : Ok a ≫= k = k a.
Proof. done. Qed.

Lemma compute_output_coast env files postalData :
  CLIP_MODE env = "coast" →
  compute_output env files postalData =
    (maskData ← loadGeoJSON files (MASK_PATH env);
     match unionMask (normalizeMask maskData) with
     | None => Throw
     | Some landMask =>
         clipped ← clipPostalCodes postalData landMask;
         gaps ← buildGapFeatures landMask (unionMask clipped);
         additions ← assignGapsToNearest (GAP_AREA_MAX env)
                       (FeatureCollection clipped) gaps;
         Ok (FeatureCollection (clipped ++ additions))
     end).
Proof. unfold compute_output. by intros ->. Qed.

(** X23. In mode [coast], when nothing survives the clipping no gap is
    looked for (the Gap Builder is given no coverage and returns no gap):
    the run succeeds and writes three empty collections, leaving the
    whole mask uncovered. *)
Theorem coast_with_nothing_clipped (env : Env) (files : Files)
    (postalData maskData : GeoDoc) (landMask : Feature) :
  CLIP_MODE env = "coast" →
  loadGeoJSON files (Some POSTAL_PATH) = Ok postalData →
  loadGeoJSON files (MASK_PATH env) = Ok maskData →
  unionMask (normalizeMask maskData) = Some landMask →
  clipPostalCodes postalData landMask = Ok [] →
  run env files =
    mkWritten (Some (FeatureCollection [])) (Some (FeatureCollection []))
              (Some (FeatureCollection [])) 0.
Proof.
  intros Hmode Hpostal Hmask Hunion Hclip.
  apply loadGeoJSON_truthy in Hmask as Htruthy.
  assert (compute_output env files postalData = Ok (FeatureCollection [])) as Hout.
  { rewrite (compute_output_coast _ _ _ Hmode), Hmask, outcome_bind_Ok, Hunion, Hclip.
    done. }
  unfold run. rewrite Hmode, Htruthy, Hpostal, outcome_bind_Ok, Hout. done.
Qed.

(** X24. The earlier script [clip-postal-geojson.cjs] and the pipeline
    script in mode [coast] agree: for the same environment and files they
    write the same first document, or both write none, and they exit with
    the same status. *)
Theorem clip_script_agrees_with_coast_mode (existsSync : string → bool)
    (env : Env) (files : Files) :
  CLIP_MODE env = "coast" →
  (∀ p d, files p = Some d → existsSync p = true) →
  ClipScript.run existsSync env files =
    (clipped_file (run env files), exit_status (run env files)).
Proof.
  intros Hmode Hexists. unfold ClipScript.run.
  destruct (str_truthy (MASK_PATH env)) eqn:Htruthy; cbn [negb orb].
  2:{ rewrite run_without_norway_mask; [done| |done].
      unfold named_mode. by rewrite Hmode. }
  assert (existsSync (default "" (MASK_PATH env)) = false →
          loadGeoJSON files (MASK_PATH env) = Throw) as Hmissing.
  { intros Hno. unfold loadGeoJSON. destruct (MASK_PATH env) as [p|]; [|done].
    simpl in Hno. destruct (String.eqb p ""); [done|].
    destruct (files p) as [d|] eqn:Hp; [|done].
    rewrite (Hexists p d Hp) in Hno. done. }
  unfold run. rewrite Hmode, Htruthy.
  replace (negb (String.eqb "coast" "none") && negb true
           && negb (str_truthy (BORDER_MASK_PATH env))) with false by done.
  destruct (loadGeoJSON files (Some POSTAL_PATH)) as [postalData|];
    [|by destruct (existsSync _)].
  rewrite !outcome_bind_Ok, (compute_output_coast _ _ _ Hmode).
  destruct (existsSync (default "" (MASK_PATH env))) eqn:Hex; cbn [negb].
  - destruct (loadGeoJSON files (MASK_PATH env)) as [maskData|]; [|done].
    rewrite outcome_bind_Ok.
    destruct (unionMask (normalizeMask maskData)) as [landMask|]; [|done].
    destruct (clipPostalCodes postalData landMask) as [clipped|]; [|done].
    rewrite outcome_bind_Ok.
    destruct (buildGapFeatures _ _) as [gaps|]; [|done].
    rewrite outcome_bind_Ok.
    by destruct (assignGapsToNearest _ _ gaps) as [additions|].
  - by rewrite (Hmissing eq_refl).
Qed.

End ModesMore.

(** * Postal codes in the map client *)

Lemma digitsOnly_all_digits (value : string) : all_digits (digitsOnly value) = true.
Proof.
  induction value as [|a rest IH]; [done|]. simpl.
  destruct (is_digit a) eqn:E; [|done]. simpl. by rewrite E.
Qed.

Lemma digitsOnly_fixed (s : string) : all_digits s = true → digitsOnly s = s.
Proof.
  induction s as [|a rest IH]; [done|]. simpl.
  intros [Ha Hrest]%andb_true_iff. by rewrite Ha, IH.
Qed.

Lemma digitsOnly_app (a b : string) :
  digitsOnly (a ++ b) = (digitsOnly a ++ digitsOnly b)%string.
Proof.
  induction a as [|c a IH]; [done|]. simpl.
  destruct (is_digit c); simpl; by rewrite IH.
Qed.

(** X25. What [normalizePostnummer] returns is a string of exactly four
    digits, namely the digits of the value in order, and it is a fixed
    point: normalizing it again returns it unchanged.  Every string of
    four digits is returned as it is. *)
Theorem normalizePostnummer_four_digits :
  (∀ value s, normalizePostnummer value = Some s →
     String.length s = 4%nat ∧ all_digits s = true ∧ s = digitsOnly value ∧
     normalizePostnummer s = Some s) ∧
  (∀ s, all_digits s = true → String.length s = 4%nat →
        normalizePostnummer s = Some s).
Proof.
  assert (∀ s, all_digits s = true → String.length s = 4%nat →
               normalizePostnummer s = Some s) as Hfix.
  { intros s Hd Hl. unfold normalizePostnummer. by rewrite digitsOnly_fixed, Hl. }
  split; [|done]. intros value s. unfold normalizePostnummer.
  destruct (String.length (digitsOnly value) =? 4)%nat eqn:E; [|done].
  intros [= <-]. apply Nat.eqb_eq in E.
  split_and!; [done|apply digitsOnly_all_digits|done|].
  apply Hfix; [apply digitsOnly_all_digits|done].
Qed.

(** X26. Characters other than digits never matter: inserting one anywhere
    in the value (a space, a dash, a letter) does not change the result. *)
Theorem normalizePostnummer_ignores_other_characters (a b : string) (c : ascii) :
  is_digit c = false →
  normalizePostnummer (a ++ String c b) = normalizePostnummer (a ++ b).
Proof.
  intros Hc. unfold normalizePostnummer. rewrite !digitsOnly_app. simpl.
  by rewrite Hc.
Qed.

(** * The converter of the raw postal file *)

Lemma string_length_app (a b : string) :
  String.length (a ++ b) = (String.length a + String.length b)%nat.
Proof. induction a as [|c a IH]; [done|]. simpl. by rewrite IH. Qed.

Lemma length_zeros (n : nat) :
  String.length (string_of_list_ascii (replicate n "0"%char)) = n.
Proof. induction n as [|n IH]; [done|]. simpl. by rewrite IH. Qed.

Section ConverterProperties.
Context (JSON_parse : string → outcome json).


Lemma padStart4_long (s : string) : (4 ≤ String.length s)%nat → padStart4 s = s.
Proof.
  intros H. unfold padStart4. by replace (4 - String.length s)%nat with 0%nat by lia.
Qed.








End ConverterProperties.

Lemma all_digits_app (a b : string) :
  all_digits (a ++ b) = all_digits a && all_digits b.
Proof.
  induction a as [|c a IH]; [done|]. simpl. by rewrite IH, andb_assoc.
Qed.

Lemma all_digits_zeros (n : nat) :
  all_digits (string_of_list_ascii (replicate n "0"%char)) = true.
Proof. induction n as [|n IH]; [done|]. simpl. exact IH. Qed.

(** X28. The converter and the map client agree on codes: the code the
    converter writes for a key of at most four digits is a four-digit
    string that [normalizePostnummer] returns unchanged; a key of four or
    more characters is written as it is. *)
Theorem converted_codes_are_normal :
  (∀ key, all_digits key = true → (String.length key ≤ 4)%nat →
          String.length (padStart4 key) = 4%nat ∧
          normalizePostnummer (padStart4 key) = Some (padStart4 key)) ∧
  (∀ key, (4 ≤ String.length key)%nat → padStart4 key = key).
Proof.
  split; [|apply padStart4_long]. intros key Hdigits Hlen.
  assert (String.length (padStart4 key) = 4%nat) as Hl.
  { unfold padStart4. rewrite string_length_app, length_zeros. lia. }
  split; [done|]. unfold normalizePostnummer.
  rewrite digitsOnly_fixed, Hl; [done|].
  unfold padStart4. by rewrite all_digits_app, all_digits_zeros, Hdigits.
Qed.

(** * The further properties on the sample data *)

Section MoreExamples.

Lemma unionMask_skips_failing_feature_witness :
  unionMask (T:=Sample.turf) ([Sample.zoneA] ++ Fixtures.marker :: [Sample.zoneB]) =
    unionMask (T:=Sample.turf) ([Sample.zoneA] ++ [Sample.zoneB]).
Proof.
  apply (unionMask_skips_failing_feature (T:=Sample.turf) [Sample.zoneA]
           [Sample.zoneB] Sample.zoneA Fixtures.marker); reflexivity.
Defined.


(** The other case: the union of two polygons without parts is empty, and
    the mask of the two is null. *)
Example unionMask_of_void_features :
  unionMask (T:=Sample.turf) [Fixtures.void; Fixtures.void] = None ∧
  unionMask (T:=Sample.turf) [Fixtures.void; Fixtures.void; Sample.zoneA] =
    Some Sample.zoneA.
Proof. split; vm_compute; reflexivity. Qed.


Lemma buildGapFeatures_one_gap_per_part_witness :
  ∃ polys,
    (∀ gaps, buildGapFeatures (T:=Sample.turf) Sample.landMask (Some Sample.zoneA)
               = Ok gaps ↔
             Forall2 (λ part gap, turf_polygon (Turf:=Sample.turf) part = Ok gap)
                     polys gaps) ∧
    (buildGapFeatures (T:=Sample.turf) Sample.landMask (Some Sample.zoneA) = Throw ↔
     ∃ part, part ∈ polys ∧ turf_polygon (Turf:=Sample.turf) part = Throw).
Proof.
  eexists.
  apply (buildGapFeatures_one_gap_per_part (T:=Sample.turf) Sample.landMask
           Sample.zoneA Fixtures.uncovered).
  - vm_compute. reflexivity.
  - vm_compute. reflexivity.
Defined.

Lemma assignGapsToNearest_centroid_failure_is_fatal_witness :
  assignGapsToNearest (T:=Sample.turf) PosInf
    (FeatureCollection [Sample.zoneA; Sample.hollow]) [Sample.strip] = Throw.
Proof.
  apply (assignGapsToNearest_centroid_failure_is_fatal (T:=Sample.turf) PosInf
           (FeatureCollection [Sample.zoneA; Sample.hollow])
           [Sample.zoneA; Sample.hollow] [Sample.strip] Sample.hollow).
  - reflexivity.
  - right. left.
  - reflexivity.
  - discriminate.
Defined.

Lemma assignGapsToNearest_keeps_gap_order_witness :
  (geometry <$> Fixtures.additions) `sublist_of` (geometry <$> [Sample.strip]) ∧
  (length Fixtures.additions ≤ length [Sample.strip])%nat.
Proof.
  apply (assignGapsToNearest_keeps_gap_order (T:=Sample.turf) PosInf
           Sample.postalData).
  vm_compute. reflexivity.
Defined.

Lemma assignGapsToNearest_fills_every_gap_witness :
  geometry <$> Fixtures.additions = geometry <$> [Sample.strip].
Proof.
  apply (assignGapsToNearest_fills_every_gap (T:=Sample.turf) PosInf
           Sample.postalData Sample.zoneA [Sample.zoneB]).
  - vm_compute. reflexivity.
  - reflexivity.
  - intros gap area _ _. apply js_gt_PosInf.
Defined.

Lemma assignGapsToNearest_monotone_in_maximum_witness :
  Fixtures.additions5 `sublist_of` Fixtures.additions.
Proof.
  apply (assignGapsToNearest_monotone_in_maximum (T:=Sample.turf) (num 5 1) PosInf
           Sample.postalData [Sample.strip]).
  - reflexivity.
  - vm_compute. reflexivity.
  - vm_compute. reflexivity.
Defined.

Lemma dissolved_features_shape_witness :
  ∃ k g, Sample.grownB = mkFeature (Some {[ "postnummer" := k ]}) (Some g) ∧
         truthy k = true.
Proof.
  apply (proj1 (dissolved_features_shape (T:=Sample.turf)
                  [Sample.zoneA; Sample.zoneB; Fixtures.stripB])).
  apply list_elem_of_In. right. left. vm_compute. reflexivity.
Defined.

Lemma dissolve_one_feature_per_code_witness :
  postnummer <$> dissolveByPostnummer (T:=Sample.turf)
    [Sample.zoneA; Fixtures.uncoded; Sample.zoneB; Fixtures.zoneA2] =
  Some <$> first_seen
    (omap truthy_code [Sample.zoneA; Fixtures.uncoded; Sample.zoneB; Fixtures.zoneA2]).
Proof.
  apply (dissolve_one_feature_per_code (T:=Sample.turf)).
  - intros k a b u Hk Hcall Hu. apply list_elem_of_In in Hk. vm_compute in Hk.
    destruct Hk as [<-|[<-|[]]]; apply list_elem_of_In in Hcall;
      vm_compute in Hcall; [|by destruct Hcall].
    destruct Hcall as [[= <- <-]|[]]. vm_compute in Hu. injection Hu as <-.
    eexists. split; [reflexivity|by eexists].
  - intros f Hf _. apply list_elem_of_In in Hf.
    destruct Hf as [<-|[<-|[<-|[<-|[]]]]]; by eexists.
Defined.

Lemma dissolve_distinct_codes_witness :
  dissolveByPostnummer (T:=Sample.turf) [Sample.zoneA; Sample.zoneB] =
    code_and_geometry <$> [Sample.zoneA; Sample.zoneB].
Proof.
  apply (dissolve_distinct_codes (T:=Sample.turf)).
  - intros f Hf. apply list_elem_of_In in Hf.
    destruct Hf as [<-|[<-|[]]]; split; by eexists.
  - apply NoDup_cons. split; [|apply NoDup_singleton].
    intros H. apply list_elem_of_In in H. vm_compute in H.
    by destruct H as [H|[]].
Defined.

Lemma buildLabelPoints_keeps_order_witness :
  postnummer <$> buildLabelPoints (T:=Sample.turf) Sample.postalData =
    postnummer <$> features_or_nil Sample.postalData.
Proof.
  apply (buildLabelPoints_keeps_order (T:=Sample.turf) Sample.postalData).
  intros f Hf. apply list_elem_of_In in Hf.
  destruct Hf as [<-|[<-|[]]]; vm_compute; discriminate.
Defined.

Lemma run_writes_in_order_witness :
  is_Some (clipped_file (run (T:=Sample.turf) (Sample.env "coast" None) Sample.files)).
Proof.
  apply (run_writes_in_order (T:=Sample.turf) (Sample.env "coast" None) Sample.files).
  vm_compute. by eexists.
Defined.

Lemma run_dissolves_what_it_wrote_witness :
  ∃ output fs,
    clipped_file (run (T:=Sample.turf) (Sample.env "coast" None) Sample.files)
      = Some output ∧
    features output = Some fs ∧
    Fixtures.dissolved_doc = FeatureCollection (dissolveByPostnummer (T:=Sample.turf) fs) ∧
    labels_file (run (T:=Sample.turf) (Sample.env "coast" None) Sample.files) =
      Some (FeatureCollection (buildLabelPoints (T:=Sample.turf) Fixtures.dissolved_doc)).
Proof.
  apply (run_dissolves_what_it_wrote (T:=Sample.turf)).
  vm_compute. reflexivity.
Defined.

Lemma run_all_or_nothing_witness :
  run (T:=Sample.turf) (Sample.env "border" None) Sample.files = nothing_written ∨
  ∃ output dissolved labels,
    run (T:=Sample.turf) (Sample.env "border" None) Sample.files =
      mkWritten (Some output) (Some dissolved) (Some labels) 0.
Proof.
  apply (run_all_or_nothing (T:=Sample.turf)). discriminate.
Defined.

Lemma mode_none_without_features_witness :
  run (T:=Sample.turf) (Sample.env "none" None) Fixtures.files_one_feature =
    mkWritten (Some (DocFeature Sample.zoneA)) None None 1.
Proof.
  apply (mode_none_without_features (T:=Sample.turf)); reflexivity.
Defined.

Lemma coast_needs_norway_mask_path_witness :
  run (T:=Sample.turf) Fixtures.env_border_only Sample.files = nothing_written.
Proof.
  apply (coast_needs_norway_mask_path (T:=Sample.turf)); reflexivity.
Defined.

Lemma border_mask_path_defaults_to_norway_witness :
  run (T:=Sample.turf) (Sample.env "border" None) Sample.files =
    run (T:=Sample.turf)
      (mkEnv (Some "mask.geojson") (Some "mask.geojson") (Some "border") None)
      Sample.files.
Proof.
  apply (border_mask_path_defaults_to_norway (T:=Sample.turf)
           (Sample.env "border" None) Sample.files).
  reflexivity.
Defined.

Lemma gapfill_border_keeps_input_witness :
  ∃ additions,
    Fixtures.output "gapfill-border" =
      FeatureCollection (features_or_nil Sample.postalData ++ additions) ∧
    ∀ a, a ∈ additions →
         ∃ f, f ∈ features_or_nil Sample.postalData ∧
              properties a = Some (properties_or_empty f).
Proof.
  apply (gapfill_border_keeps_input (T:=Sample.turf)
           (Sample.env "gapfill-border" None) Sample.files).
  - reflexivity.
  - vm_compute. reflexivity.
Defined.

Lemma border_mode_only_clips_witness :
  ∃ clipped,
    Fixtures.output "border" = FeatureCollection clipped ∧
    (postnummer <$> clipped)
      `sublist_of` (postnummer <$> features_or_nil Sample.postalData) ∧
    (length clipped ≤ length (features_or_nil Sample.postalData))%nat.
Proof.
  apply (border_mode_only_clips (T:=Sample.turf) (Sample.env "border" None)
           Sample.files).
  - discriminate.
  - discriminate.
  - discriminate.
  - vm_compute. reflexivity.
Defined.

Lemma coast_with_nothing_clipped_witness :
  run (T:=Sample.turf) (Sample.env "coast" None) Fixtures.files_no_feature =
    mkWritten (Some (FeatureCollection [])) (Some (FeatureCollection []))
              (Some (FeatureCollection [])) 0.
Proof.
  apply (coast_with_nothing_clipped (T:=Sample.turf) (Sample.env "coast" None)
           Fixtures.files_no_feature (FeatureCollection []) Sample.maskData
           Sample.landMask).
  - reflexivity.
  - vm_compute. reflexivity.
  - vm_compute. reflexivity.
  - vm_compute. reflexivity.
  - vm_compute. reflexivity.
Defined.

Lemma clip_script_agrees_with_coast_mode_witness :
  ClipScript.run (T:=Sample.turf) Fixtures.existsSync (Sample.env "coast" None)
    Sample.files =
  (clipped_file (run (T:=Sample.turf) (Sample.env "coast" None) Sample.files),
   exit_status (run (T:=Sample.turf) (Sample.env "coast" None) Sample.files)).
Proof.
  apply (clip_script_agrees_with_coast_mode (T:=Sample.turf)).
  - reflexivity.
  - reflexivity.
Defined.

Lemma normalizePostnummer_four_digits_witness :
  String.length "0150" = 4%nat ∧ all_digits "0150" = true ∧
  "0150" = digitsOnly "01-50 " ∧ normalizePostnummer "0150" = Some "0150".
Proof.
  apply (proj1 normalizePostnummer_four_digits "01-50 " "0150"). reflexivity.
Defined.

Lemma normalizePostnummer_ignores_other_characters_witness :
  normalizePostnummer ("01" ++ String " " "50") = normalizePostnummer ("01" ++ "50").
Proof.
  apply (normalizePostnummer_ignores_other_characters "01" "50" " "). reflexivity.
Defined.


(** The keys 150 and 151 are array indices and come first, in ascending
    order; the key 0150 is not, and comes last, although the file has it
    second.  Both 150 and 0150 are written as 0150. *)
Example convert_sample :
  fst <$> own_keys_order Fixtures.raw_fields = ["150"; "151"; "152"; "153"; "0150"] ∧
  conv_postnummer <$>
    try_catch (convert Fixtures.JSON_parse (JObj Fixtures.raw_fields)) [] =
  ["0150"; "0151"; "0150"].
Proof. split; vm_compute; reflexivity. Qed.

Lemma converted_codes_are_normal_witness :
  String.length (padStart4 "150") = 4%nat ∧
  normalizePostnummer (padStart4 "150") = Some (padStart4 "150").
Proof.
  apply (proj1 converted_codes_are_normal "150"); [reflexivity|].
  simpl. lia.
Defined.

End MoreExamples.
